(** * Codebusters puzzle bot: the [Puzzle] state machine of [bot.py]

    A shallow embedding of the class [Puzzle] (cipher generation, guesses,
    undo, clear, hints, solve detection), of the quote store and of the bot's
    commands on the registry of active puzzles, with their properties proved
    over it.

    Python strings are sequences of Unicode code points.  A code point is an
    [N]; a [str] is a list of them.  What Python's string predicates answer
    on the ASCII block is fixed and written out below; what they answer
    elsewhere comes from the interpreter's Unicode database, which is a
    parameter of the development ([UnicodeData]).  Randomness ([random.shuffle],
    [random.choice]) is passed in explicitly as the outcome of the draw. *)

From Stdlib Require Import NArith Ascii String List Permutation Lia.
From stdpp Require Import base option list gmap strings sorting.

Local Open Scope N_scope.

Abbreviation char := N (only parsing).
Abbreviation str := (list N) (only parsing).

(** The code points of an ASCII literal. *)
Definition codes (s : string) : str :=
  map N_of_ascii (list_ascii_of_string s).

(** ** Python's string predicates *)

(** The part of the Unicode database the bot's string methods consult for
    code points outside ASCII. *)
Class UnicodeData := {
  ud_isalpha : char → bool;
  ud_isalnum : char → bool;
  ud_isupper : char → bool;
  ud_islower : char → bool;
  ud_istitle : char → bool;
  (* [str.lower] of a string holding a non-ASCII code point *)
  ud_lower : str → str
}.

Definition is_ascii (c : char) : bool := c <? 128.
Definition ascii_isupper (c : char) : bool := (65 <=? c) && (c <=? 90).
Definition ascii_islower (c : char) : bool := (97 <=? c) && (c <=? 122).
Definition ascii_isdigit (c : char) : bool := (48 <=? c) && (c <=? 57).
Definition ascii_tolower (c : char) : char :=
  if ascii_isupper c then c + 32 else c.

Section StringMethods.
Context {U : UnicodeData}.

Definition char_isupper (c : char) : bool :=
  if is_ascii c then ascii_isupper c else ud_isupper c.
Definition char_islower (c : char) : bool :=
  if is_ascii c then ascii_islower c else ud_islower c.
Definition char_istitle (c : char) : bool :=
  if is_ascii c then false else ud_istitle c.

(** [ch.isalpha()] and [ch.isalnum()] of a one-character string. *)
Definition isalpha (c : char) : bool :=
  if is_ascii c then ascii_isupper c || ascii_islower c else ud_isalpha c.
Definition isalnum (c : char) : bool :=
  if is_ascii c then ascii_isupper c || ascii_islower c || ascii_isdigit c
  else ud_isalnum c.

(** [s.isupper()]: a one-character string is tested directly; otherwise no
    character may be lowercase or titlecase and one must be uppercase. *)
Definition isupper (s : str) : bool :=
  match s with
  | [c] => char_isupper c
  | _ => negb (existsb (λ c, char_islower c || char_istitle c) s)
         && existsb char_isupper s
  end.

(** [s.islower()], symmetrically. *)
Definition islower (s : str) : bool :=
  match s with
  | [c] => char_islower c
  | _ => negb (existsb (λ c, char_isupper c || char_istitle c) s)
         && existsb char_islower s
  end.

(** [s.lower()]: character by character on an ASCII string. *)
Definition lower (s : str) : str :=
  if forallb is_ascii s then map ascii_tolower s else ud_lower s.
End StringMethods.

(** [string.ascii_lowercase], [string.ascii_uppercase] and the placeholder. *)
Definition ascii_lowercase : str := codes "abcdefghijklmnopqrstuvwxyz".
Definition ascii_uppercase : str := codes "ABCDEFGHIJKLMNOPQRSTUVWXYZ".
Definition underscore : char := 95.

(** ** The puzzle *)

(** [cipher_mapping] is a dict built from [zip]: an insertion-ordered list of
    (plain letter, cipher letter). [user_guesses] is a dict from string to
    string. *)
Record Puzzle := mkPuzzle {
  plaintext : str;
  cipher_mapping : list (char * char);
  user_guesses : gmap str str
}.

Definition set_guesses (pz : Puzzle) (g : gmap str str) : Puzzle :=
  {| plaintext := plaintext pz;
     cipher_mapping := cipher_mapping pz;
     user_guesses := g |}.

(** [generate_cipher]: [shuffled] is [list(string.ascii_uppercase)] after
    [random.shuffle]. *)
Definition generate_cipher (shuffled : str) : list (char * char) :=
  combine ascii_lowercase shuffled.

(** [cipher_mapping.get(c, c)] *)
Fixpoint dict_get (m : list (char * char)) (k : char) (dflt : char) : char :=
  match m with
  | [] => dflt
  | (k', v) :: rest => if bool_decide (k' = k) then v else dict_get rest k dflt
  end.

Definition get_ciphertext (pz : Puzzle) : str :=
  map (λ c, dict_get (cipher_mapping pz) c c) (plaintext pz).

(** The scan of [cipher_mapping.items()] shared by [make_guess] and
    [give_hint]: the first item whose cipher letter is the token. *)
Fixpoint find_cipher (items : list (char * char)) (cipher_char : str)
    : option char :=
  match items with
  | [] => None
  | (real_plain_char, mapped_cipher_char) :: rest =>
      if bool_decide ([mapped_cipher_char] = cipher_char)
      then Some real_plain_char
      else find_cipher rest cipher_char
  end.

(** [undo_guess] *)
Definition undo_guess (pz : Puzzle) (cipher_char : str) : bool * Puzzle :=
  if bool_decide (cipher_char ∈ dom (user_guesses pz))
  then (true, set_guesses pz (delete cipher_char (user_guesses pz)))
  else (false, pz).

(** [clear_guesses] *)
Definition clear_guesses (pz : Puzzle) : Puzzle := set_guesses pz ∅.

(** [random.choice(seq)] is [seq[randbelow(len(seq))]]; [r] is the draw. *)
Definition choice (r : nat) (seq : str) : char :=
  nth (r mod length seq)%nat seq 0.

Section PuzzleOps.
Context {U : UnicodeData}.

(** [Puzzle.__init__] *)
Definition new (shuffled : str) (text : str) : Puzzle :=
  {| plaintext := lower text;
     cipher_mapping := generate_cipher shuffled;
     user_guesses := ∅ |}.

(** One iteration of the loop of [get_current_guess]. *)
Definition guess_piece (g : gmap str str) (ch : char) : str :=
  if isalpha ch then
    match g !! [ch] with
    | Some plain => plain            (* char in user_guesses *)
    | None => [underscore]
    end
  else [ch].

Definition get_current_guess (pz : Puzzle) : str :=
  concat (map (guess_piece (user_guesses pz)) (get_ciphertext pz)).

(** [make_guess] *)
Definition make_guess (pz : Puzzle) (cipher_char plain_char : str)
    : bool * Puzzle :=
  if negb (isupper cipher_char && islower plain_char) then (false, pz)
  else
    match find_cipher (cipher_mapping pz) cipher_char with
    | Some real_plain_char =>
        if bool_decide ([real_plain_char] = plain_char)
        then (true, set_guesses pz (<[cipher_char := plain_char]> (user_guesses pz)))
        else (false, pz)
    | None => (false, pz)
    end.

(** [is_solved] *)
Definition is_solved (pz : Puzzle) : bool :=
  bool_decide (get_current_guess pz = plaintext pz).

(** The list [unguessed] built by [give_hint]. *)
Definition unguessed (pz : Puzzle) : str :=
  filter (λ cipher_char,
            isalpha cipher_char = true ∧ [cipher_char] ∉ dom (user_guesses pz))
         (get_ciphertext pz).

(** [give_hint]; [r] is the draw of [random.choice]. *)
Definition give_hint (pz : Puzzle) (r : nat) : option (char * char) * Puzzle :=
  match unguessed pz with
  | [] => (None, pz)
  | _ =>
      let chosen_cipher := choice r (unguessed pz) in
      match find_cipher (cipher_mapping pz) [chosen_cipher] with
      | Some real_plain_char =>
          (Some (chosen_cipher, real_plain_char),
           set_guesses pz (<[[chosen_cipher] := [real_plain_char]]> (user_guesses pz)))
      | None => (None, pz)
      end
  end.
End PuzzleOps.

(** ** The [!solve] command and the registry of active puzzles *)

(** The messages [solve_puzzle] sends. *)
Inductive reply :=
| NoActivePuzzle      (* "No active puzzle! Use !newpuzzle to start one." *)
| Congratulations     (* "Congratulations! You've correctly solved the entire puzzle!" *)
| NoMatch.            (* "Sorry, that guess doesn't match the actual solution." *)

Section SolveCommand.
Context {U : UnicodeData}.

(** The local function [normalize] of [solve_puzzle]. *)
Definition normalize (text : str) : str :=
  filter (λ ch, isalnum ch = true) (lower text).

(** The comparison [guess_norm == plaintext_norm]. *)
Definition solve_attempt (pz : Puzzle) (guess_text : str) : bool :=
  bool_decide (normalize guess_text = normalize (plaintext pz)).

(** [solve_puzzle]: [active_puzzles] maps a user id to that user's puzzle;
    the result is the message sent and the registry afterwards. *)
Definition solve_puzzle (active_puzzles : gmap Z Puzzle) (author : Z)
    (guess_text : str) : reply * gmap Z Puzzle :=
  match active_puzzles !! author with
  | None => (NoActivePuzzle, active_puzzles)
  | Some puzzle =>
      if solve_attempt puzzle guess_text
      then (Congratulations, delete author active_puzzles)
      else (NoMatch, active_puzzles)
  end.
End SolveCommand.

(** The normalization as the specification words it, to compare with
    [normalize]: [stripped] is [l] with every character that is not
    alphanumeric removed, the others kept in order; a text is normalized by
    lowercasing it and then removing those characters. *)
Inductive spec_strip {U : UnicodeData} : str → str → Prop :=
| strip_nil : spec_strip [] []
| strip_keep ch l stripped :
    isalnum ch = true → spec_strip l stripped →
    spec_strip (ch :: l) (ch :: stripped)
| strip_drop ch l stripped :
    isalnum ch = false → spec_strip l stripped →
    spec_strip (ch :: l) stripped.

Definition spec_normalized {U : UnicodeData} (text normalized : str) : Prop :=
  spec_strip (lower text) normalized.

(** ** Reachable puzzles and repeated hints *)

Section Reachable.
Context {U : UnicodeData}.

(** The states a puzzle object goes through: built by [Puzzle(text)] with
    some outcome of the shuffle, then any calls of the four mutators. *)
Inductive reachable : Puzzle → Prop :=
| reach_new shuffled text :
    Permutation ascii_uppercase shuffled →
    reachable (new shuffled text)
| reach_make_guess pz cipher_char plain_char :
    reachable pz → reachable (make_guess pz cipher_char plain_char).2
| reach_undo_guess pz cipher_char :
    reachable pz → reachable (undo_guess pz cipher_char).2
| reach_clear_guesses pz :
    reachable pz → reachable (clear_guesses pz)
| reach_give_hint pz r :
    reachable pz → reachable (give_hint pz r).2.

(** Calling [give_hint] until it returns [None]: [draws n] is the draw of
    the [n]-th call.  The result is the number of hints given and the
    puzzle at the call that returned [None]; [None] when [fuel] calls did
    not reach it. *)
Fixpoint exhaust_hints (fuel : nat) (draws : nat → nat) (pz : Puzzle)
    : option (nat * Puzzle) :=
  match fuel with
  | O => None
  | S fuel' =>
      match give_hint pz (draws O) with
      | (None, pz') => Some (O, pz')
      | (Some _, pz') =>
          match exhaust_hints fuel' (λ n, draws (S n)) pz' with
          | Some (k, pz'') => Some (S k, pz'')
          | None => None
          end
      end
  end.
End Reachable.

(** ** The Latin-1 block of the Unicode database

    The answers of CPython's database for the code points 128..255, used to
    run the model on concrete texts.  Code points from 256 on are outside
    this table and it is only applied to texts below them. *)

Definition between (lo hi c : char) : bool := (lo <=? c) && (c <=? hi).

Definition latin1_isupper (c : char) : bool :=
  between 192 214 c || between 216 222 c.
Definition latin1_islower (c : char) : bool :=
  (c =? 170) || (c =? 181) || (c =? 186) || between 223 246 c || between 248 255 c.
Definition latin1_isalpha (c : char) : bool :=
  latin1_isupper c || latin1_islower c.
Definition latin1_isalnum (c : char) : bool :=
  latin1_isalpha c || (c =? 178) || (c =? 179) || (c =? 185) || between 188 190 c.
Definition latin1_tolower (c : char) : char :=
  if is_ascii c then ascii_tolower c
  else if latin1_isupper c then c + 32 else c.

Definition Latin1 : UnicodeData :=
  {| ud_isalpha := latin1_isalpha;
     ud_isalnum := latin1_isalnum;
     ud_isupper := latin1_isupper;
     ud_islower := latin1_islower;
     ud_istitle := λ _, false;
     ud_lower := map latin1_tolower |}.

(** [revealed] agrees with the true mapping: every entry of [user_guesses]
    is a one-letter key and a one-letter value that form an item of
    [cipher_mapping]. *)
Definition consistent (pz : Puzzle) : Prop :=
  ∀ cipher_char plain_char,
    user_guesses pz !! cipher_char = Some plain_char →
    ∃ c p, cipher_char = [c] ∧ plain_char = [p] ∧ (p, c) ∈ cipher_mapping pz.

(** [plain_char] is the true plaintext letter of [cipher_char]. *)
Definition true_letter (pz : Puzzle) (cipher_char plain_char : str) : Prop :=
  ∃ c p, cipher_char = [c] ∧ plain_char = [p] ∧ (p, c) ∈ cipher_mapping pz.

(** The cipher letters not yet revealed: the measure of repeated hints. *)
Definition hidden (pz : Puzzle) : str :=
  filter (λ c, [c] ∉ dom (user_guesses pz)) ascii_uppercase.

(** Every alphabetic character of the plaintext is one of the 26 letters
    the mapping covers. *)
Definition ascii_letters_only {U : UnicodeData} (pz : Puzzle) : Prop :=
  ∀ c, c ∈ plaintext pz → isalpha c = true → c ∈ ascii_lowercase.

(** ** Sample puzzles

    The shuffle of the worked example: h→Q, i→Z, t→M, e→X, r→K. *)
Definition sample_shuffle : str := codes "ABCDXEFQZGHIJLNOPKRMSTUVWY".

Definition hi_there : Puzzle := new (U:=Latin1) sample_shuffle (codes "Hi there").

(** [hi_there] after [make_guess('Q', 'h')]. *)
Definition hi_there_Q : Puzzle :=
  (make_guess (U:=Latin1) hi_there (codes "Q") (codes "h")).2.

(** A quote with a letter outside ASCII: "Café", with é = U+00E9. *)
Definition cafe : Puzzle := new (U:=Latin1) sample_shuffle [67; 97; 102; 233].

(** ** The command layer

    The bot's commands, run one at a time to completion.  A command gets the
    author's id and its arguments, sends messages and may change the
    registry [active_puzzles] and the file [quotes.json].  A result [None]
    stands for an uncaught [KeyError]. *)

(** [str.upper] outside ASCII comes from the Unicode database too. *)
Class UnicodeUpper := { ud_upper : str → str }.

Definition ascii_toupper (c : char) : char :=
  if ascii_islower c then c - 32 else c.

(** [s.upper()]: character by character on an ASCII string. *)
Definition upper {V : UnicodeUpper} (s : str) : str :=
  if forallb is_ascii s then map ascii_toupper s else ud_upper s.

(** The Latin-1 block: ß becomes SS, µ and ÿ leave the block. *)
Definition latin1_upper_piece (c : char) : str :=
  if is_ascii c then [ascii_toupper c]
  else if c =? 223 then [83; 83]
  else if c =? 181 then [924]
  else if c =? 255 then [376]
  else if between 224 246 c || between 248 254 c then [c - 32]
  else [c].

Definition Latin1Upper : UnicodeUpper :=
  {| ud_upper := flat_map latin1_upper_piece |}.

(** What [ctx.send] is given: a text or an embed. *)
Record EmbedField := mkField {
  field_name : str;
  field_value : str;
  field_inline : bool
}.

Record Embed := mkEmbed {
  embed_title : str;
  embed_color : N;
  embed_fields : list EmbedField
}.

Inductive message :=
| Send (content : str)
| SendEmbed (embed : Embed).

Definition no_active_puzzle_msg : str :=
  codes "No active puzzle! Use !newpuzzle to start one.".
Definition congratulations_msg : str :=
  codes "Congratulations! You've correctly solved the entire puzzle!".
Definition no_match_msg : str :=
  codes "Sorry, that guess doesn't match the actual solution.".
Definition incorrect_guess_msg : str :=
  codes "Incorrect guess or invalid format. (cipher=UPPER, plain=lower)".
Definition no_guess_found_msg : str :=
  codes "No guess found for that character.".
Definition no_quotes_msg : str :=
  codes "No quotes available in the database!".
Definition quote_added_msg : str :=
  codes "Quote added successfully!".
Definition already_solved_msg : str :=
  codes "Puzzle is already solved!".
Definition nothing_to_hint_msg : str :=
  codes "All letters have been revealed or there's nothing to hint.".

(** f"Here's a hint: **{cipher_char}** maps to **{plain_char}**." *)
Definition hint_msg (cipher_char plain_char : char) : str :=
  codes "Here's a hint: **" ++ [cipher_char] ++ codes "** maps to **"
    ++ [plain_char] ++ codes "**.".

(** f"The full answer was:\n\n**{puzzle.plaintext}**" *)
Definition answer_msg (plain : str) : str :=
  codes "The full answer was:" ++ [10; 10] ++ codes "**" ++ plain ++ codes "**".

Definition reply_text (r : reply) : str :=
  match r with
  | NoActivePuzzle => no_active_puzzle_msg
  | Congratulations => congratulations_msg
  | NoMatch => no_match_msg
  end.

(** [str(n)] of a count. *)
Fixpoint digits (d : Decimal.uint) : str :=
  match d with
  | Decimal.Nil => []
  | Decimal.D0 d => 48 :: digits d
  | Decimal.D1 d => 49 :: digits d
  | Decimal.D2 d => 50 :: digits d
  | Decimal.D3 d => 51 :: digits d
  | Decimal.D4 d => 52 :: digits d
  | Decimal.D5 d => 53 :: digits d
  | Decimal.D6 d => 54 :: digits d
  | Decimal.D7 d => 55 :: digits d
  | Decimal.D8 d => 56 :: digits d
  | Decimal.D9 d => 57 :: digits d
  end.

Definition str_of_nat (n : nat) : str := digits (Nat.to_uint n).

(** [sep.join(pieces)] *)
Fixpoint join (sep : str) (pieces : list str) : str :=
  match pieces with
  | [] => []
  | [s] => s
  | s :: rest => s ++ sep ++ join sep rest
  end.

(** [Counter(iterable)]: one more for each element, from the left. *)
Definition Counter (l : str) : gmap char nat :=
  foldl (λ cnt ch, <[ch := S (default O (cnt !! ch))]> cnt) ∅ l.

(** [sorted(freq_counter)]: the keys in increasing code point order. *)
Definition sorted_keys (cnt : gmap char nat) : str :=
  merge_sort N.le (elements (dom cnt)).

(** [load_quotes] and [save_quotes]: [quotes.json] holds a list of quotes, or
    does not exist ([None]). *)
Definition load_quotes (quotes_file : option (list str)) : list str :=
  match quotes_file with
  | Some quotes => quotes
  | None => []                     (* FileNotFoundError *)
  end.

Definition save_quotes (quotes : list str) : option (list str) := Some quotes.

(** [del active_puzzles[k]], which raises [KeyError] on a missing key. *)
Definition dict_del (d : gmap Z Puzzle) (k : Z) : option (gmap Z Puzzle) :=
  match d !! k with
  | Some _ => Some (delete k d)
  | None => None
  end.

(** The process state the commands share. *)
Record World := mkWorld {
  active_puzzles : gmap Z Puzzle;
  quotes_file : option (list str)
}.

Definition set_puzzles (w : World) (reg : gmap Z Puzzle) : World :=
  {| active_puzzles := reg; quotes_file := quotes_file w |}.

Section CommandLayer.
Context {U : UnicodeData} {V : UnicodeUpper}.

(** The frequency table of [display_puzzle]. *)
Definition freq_counter (puzzle : Puzzle) : gmap char nat :=
  Counter (filter (λ ch, isalpha ch = true) (get_ciphertext puzzle)).

Definition freq_line (cnt : gmap char nat) (letter : char) : str :=
  [letter] ++ codes ": " ++ str_of_nat (default O (cnt !! letter)).

Definition freq_str (puzzle : Puzzle) : str :=
  join [10] (map (freq_line (freq_counter puzzle))
                 (sorted_keys (freq_counter puzzle))).

Definition puzzle_embed (puzzle : Puzzle) : Embed :=
  {| embed_title := codes "Codebusters Puzzle";
     embed_color := 65280;
     embed_fields :=
       [ mkField (codes "Cipher Text")
                 (codes "```" ++ get_ciphertext puzzle ++ codes "```") false;
         mkField (codes "Your Guess")
                 (codes "```" ++ get_current_guess puzzle ++ codes "```") false;
         mkField (codes "Ciphertext Frequency")
                 (codes "```" ++ freq_str puzzle ++ codes "```") false ] |}.

(** [display_puzzle]: [active_puzzles[ctx.author.id]] raises [KeyError] when
    the author has no puzzle. *)
Definition display_puzzle (reg : gmap Z Puzzle) (author : Z) : option message :=
  puzzle ← reg !! author;
  Some (SendEmbed (puzzle_embed puzzle)).

(** [!newpuzzle]; [r] is the draw of [random.choice(quotes)] and [shuffled]
    the outcome of the shuffle in [Puzzle(quote)]. *)
Definition new_puzzle (w : World) (author : Z) (r : nat) (shuffled : str)
    : option (list message * World) :=
  let quotes := load_quotes (quotes_file w) in
  match quotes with
  | [] => Some ([Send no_quotes_msg], w)
  | _ =>
      let quote := nth (r mod length quotes)%nat quotes [] in
      let puzzle := new shuffled quote in
      let reg := <[author := puzzle]> (active_puzzles w) in
      m ← display_puzzle reg author;
      Some ([m], set_puzzles w reg)
  end.

(** [!guess].  The puzzle object is changed in place, so the registry holds
    the changed puzzle. *)
Definition guess (w : World) (author : Z) (cipher_char plain_char : str)
    : option (list message * World) :=
  match active_puzzles w !! author with
  | None => Some ([Send no_active_puzzle_msg], w)
  | Some puzzle =>
      let '(success, puzzle') :=
        make_guess puzzle (upper cipher_char) (lower plain_char) in
      let reg := <[author := puzzle']> (active_puzzles w) in
      if success then
        if is_solved puzzle' then
          reg' ← dict_del reg author;
          Some ([Send congratulations_msg], set_puzzles w reg')
        else
          m ← display_puzzle reg author;
          Some ([m], set_puzzles w reg)
      else Some ([Send incorrect_guess_msg], set_puzzles w reg)
  end.

(** [!undo] *)
Definition undo (w : World) (author : Z) (cipher_char : str)
    : option (list message * World) :=
  match active_puzzles w !! author with
  | None => Some ([Send no_active_puzzle_msg], w)
  | Some puzzle =>
      let '(removed, puzzle') := undo_guess puzzle (upper cipher_char) in
      let reg := <[author := puzzle']> (active_puzzles w) in
      if removed then
        m ← display_puzzle reg author;
        Some ([m], set_puzzles w reg)
      else Some ([Send no_guess_found_msg], set_puzzles w reg)
  end.

(** [!clear] *)
Definition clear (w : World) (author : Z) : option (list message * World) :=
  match active_puzzles w !! author with
  | None => Some ([Send no_active_puzzle_msg], w)
  | Some puzzle =>
      let reg := <[author := clear_guesses puzzle]> (active_puzzles w) in
      m ← display_puzzle reg author;
      Some ([m], set_puzzles w reg)
  end.

(** [!solve], on the registry of the world. *)
Definition solve (w : World) (author : Z) (guess_text : str)
    : option (list message * World) :=
  let '(r, reg) := solve_puzzle (active_puzzles w) author guess_text in
  Some ([Send (reply_text r)], set_puzzles w reg).

(** [!addquote] *)
Definition add_quote (w : World) (quote : str) : option (list message * World) :=
  let quotes := load_quotes (quotes_file w) in
  Some ([Send quote_added_msg],
        {| active_puzzles := active_puzzles w;
           quotes_file := save_quotes (quotes ++ [quote]) |}).

(** [!hint]; [r] is the draw of [give_hint]. *)
Definition give_hint_command (w : World) (author : Z) (r : nat)
    : option (list message * World) :=
  match active_puzzles w !! author with
  | None => Some ([Send no_active_puzzle_msg], w)
  | Some puzzle =>
      let '(hint_result, puzzle') := give_hint puzzle r in
      let reg := <[author := puzzle']> (active_puzzles w) in
      match hint_result with
      | None =>
          if is_solved puzzle'
          then Some ([Send already_solved_msg], set_puzzles w reg)
          else Some ([Send nothing_to_hint_msg], set_puzzles w reg)
      | Some (cipher_char, plain_char) =>
          let sent := Send (hint_msg cipher_char plain_char) in
          if is_solved puzzle' then
            reg' ← dict_del reg author;
            Some ([sent; Send congratulations_msg], set_puzzles w reg')
          else
            m ← display_puzzle reg author;
            Some ([sent; m], set_puzzles w reg)
      end
  end.

(** [!answer] *)
Definition show_answer (w : World) (author : Z) : option (list message * World) :=
  match active_puzzles w !! author with
  | None => Some ([Send no_active_puzzle_msg], w)
  | Some puzzle =>
      reg' ← dict_del (active_puzzles w) author;
      Some ([Send (answer_msg (plaintext puzzle))], set_puzzles w reg')
  end.

(** The commands a user can send, with the draws they consume. *)
Inductive command :=
| NewPuzzle (r : nat) (shuffled : str)
| Guess (cipher_char plain_char : str)
| Undo (cipher_char : str)
| Clear
| Solve (guess_text : str)
| AddQuote (quote : str)
| Hint (r : nat)
| Answer.

Definition run (w : World) (author : Z) (cmd : command)
    : option (list message * World) :=
  match cmd with
  | NewPuzzle r shuffled => new_puzzle w author r shuffled
  | Guess cipher_char plain_char => guess w author cipher_char plain_char
  | Undo cipher_char => undo w author cipher_char
  | Clear => clear w author
  | Solve guess_text => solve w author guess_text
  | AddQuote quote => add_quote w quote
  | Hint r => give_hint_command w author r
  | Answer => show_answer w author
  end.

(** The draw of a shuffle is a permutation of the uppercase alphabet. *)
Definition fair (cmd : command) : Prop :=
  match cmd with
  | NewPuzzle _ shuffled => Permutation ascii_uppercase shuffled
  | _ => True
  end.

(** The worlds the bot goes through: it starts with no puzzle and whatever
    [quotes.json] holds, and runs commands. *)
Inductive world_reachable : World → Prop :=
| world_start qf : world_reachable {| active_puzzles := ∅; quotes_file := qf |}
| world_run w author cmd out w' :
    world_reachable w → fair cmd → run w author cmd = Some (out, w') →
    world_reachable w'.
End CommandLayer.

(** The commands that work on the author's puzzle. *)
Definition needs_puzzle (cmd : command) : bool :=
  match cmd with
  | NewPuzzle _ _ | AddQuote _ => false
  | _ => true
  end.

(** The commands that can reveal a letter. *)
Definition reveals (cmd : command) : bool :=
  match cmd with
  | Guess _ _ | Hint _ => true
  | _ => false
  end.

(** An ASCII letter, of either case. *)
Definition ascii_letter (c : char) : bool := ascii_isupper c || ascii_islower c.

(** A puzzle whose quote has no letter, and [hi_there] after five hints. *)
Definition no_letters : Puzzle := new (U:=Latin1) sample_shuffle (codes "42!").

Definition hi_there_solved : Puzzle :=
  Nat.iter 5 (λ pz, (give_hint (U:=Latin1) pz 0).2) hi_there.

(** A world for the samples: Ann (user 7) is on the "Hi there" puzzle. *)
Definition ann : Z := 7.
Definition sample_world : World :=
  {| active_puzzles := {[ ann := hi_there ]};
     quotes_file := Some [codes "Hi there"] |}.

(** * Proofs *)

(** ** The alphabets and the generated mapping *)

Lemma ascii_lowercase_length : length ascii_lowercase = 26%nat.
Proof. reflexivity. Qed.

Lemma ascii_uppercase_length : length ascii_uppercase = 26%nat.
Proof. reflexivity. Qed.

Lemma ascii_lowercase_NoDup : NoDup ascii_lowercase.
Proof. apply (bool_decide_unpack _). vm_compute. exact I. Qed.

Lemma ascii_uppercase_NoDup : NoDup ascii_uppercase.
Proof. apply (bool_decide_unpack _). vm_compute. exact I. Qed.

Lemma generate_cipher_fst shuffled :
  length shuffled = 26%nat → map fst (generate_cipher shuffled) = ascii_lowercase.
Proof.
  intros Hlen. unfold generate_cipher. apply fst_zip.
  rewrite Hlen, ascii_lowercase_length. lia.
Qed.

Lemma generate_cipher_snd shuffled :
  length shuffled = 26%nat → map snd (generate_cipher shuffled) = shuffled.
Proof.
  intros Hlen. unfold generate_cipher. apply snd_zip.
  rewrite Hlen, ascii_lowercase_length. lia.
Qed.

Lemma shuffled_length shuffled :
  Permutation ascii_uppercase shuffled → length shuffled = 26%nat.
Proof. intros Hp. rewrite <- (Permutation_length Hp). reflexivity. Qed.

(** C8. Whatever the outcome of the shuffle, the generated mapping has 26
    items, its keys are the 26 lowercase letters (each once, in order) and
    its values are the 26 uppercase letters, each exactly once: it pairs the
    two alphabets one to one. *)
Theorem generate_cipher_bijection (shuffled : str) :
  Permutation ascii_uppercase shuffled →
  length (generate_cipher shuffled) = 26%nat
  ∧ map fst (generate_cipher shuffled) = ascii_lowercase
  ∧ NoDup (map fst (generate_cipher shuffled))
  ∧ Permutation ascii_uppercase (map snd (generate_cipher shuffled))
  ∧ NoDup (map snd (generate_cipher shuffled)).
Proof.
  intros Hp. pose proof (shuffled_length _ Hp) as Hlen.
  rewrite generate_cipher_fst, generate_cipher_snd by done.
  split_and!.
  - rewrite <- (length_map fst), generate_cipher_fst by done. reflexivity.
  - done.
  - apply ascii_lowercase_NoDup.
  - done.
  - rewrite <- Hp. apply ascii_uppercase_NoDup.
Qed.

(** ** The scan of the mapping *)

Lemma find_cipher_Some items cipher_char p :
  find_cipher items cipher_char = Some p →
  ∃ c, cipher_char = [c] ∧ (p, c) ∈ items.
Proof.
  induction items as [|[p' c'] items IH]; simpl; [done|].
  case_bool_decide as Heq.
  - intros [= ->]. exists c'. split; [done | left].
  - intros Hf. destruct (IH Hf) as (c & -> & Hin). exists c. split; [done | by right].
Qed.

Lemma find_cipher_unique items p c :
  NoDup (map snd items) → (p, c) ∈ items → find_cipher items [c] = Some p.
Proof.
  induction items as [|[p' c'] items IH]; simpl.
  - intros _ Hin. by apply elem_of_nil in Hin.
  - intros [Hnotin Hnd]%NoDup_cons [Heq | Hin]%elem_of_cons.
    + injection Heq as -> ->. by rewrite bool_decide_eq_true_2.
    + case_bool_decide as Heq; [|by apply IH].
      injection Heq as ->. exfalso. apply Hnotin.
      apply list_elem_of_fmap. by exists (p, c).
Qed.

Section PuzzleProofs.
Context {U : UnicodeData}.

(** *** What each mutator does to the state *)

Lemma make_guess_cases pz cipher_char plain_char :
  make_guess pz cipher_char plain_char = (false, pz)
  ∨ (make_guess pz cipher_char plain_char
       = (true, set_guesses pz (<[cipher_char := plain_char]> (user_guesses pz)))
     ∧ isupper cipher_char = true ∧ islower plain_char = true
     ∧ ∃ c p, cipher_char = [c] ∧ plain_char = [p]
              ∧ (p, c) ∈ cipher_mapping pz).
Proof.
  unfold make_guess.
  destruct (isupper cipher_char) eqn:Hup, (islower plain_char) eqn:Hlo;
    simpl; auto.
  destruct (find_cipher _ _) as [p|] eqn:Hf; auto.
  case_bool_decide as Heq; auto.
  right. split_and!; try done.
  destruct (find_cipher_Some _ _ _ Hf) as (c & -> & Hin). by exists c, p.
Qed.

Lemma undo_guess_cases pz cipher_char :
  (undo_guess pz cipher_char = (false, pz) ∧ user_guesses pz !! cipher_char = None)
  ∨ (undo_guess pz cipher_char
       = (true, set_guesses pz (delete cipher_char (user_guesses pz)))
     ∧ is_Some (user_guesses pz !! cipher_char)).
Proof.
  unfold undo_guess. case_bool_decide as Hin.
  - right. split; [done | by apply elem_of_dom].
  - left. split; [done | by apply not_elem_of_dom].
Qed.

Lemma choice_elem_of r (seq : str) : seq ≠ [] → choice r seq ∈ seq.
Proof.
  intros Hne. unfold choice. apply list_elem_of_In, nth_In.
  apply Nat.mod_upper_bound. by destruct seq.
Qed.

Lemma give_hint_cases pz r :
  give_hint pz r = (None, pz)
  ∨ ∃ c p,
      give_hint pz r
        = (Some (c, p), set_guesses pz (<[[c] := [p]]> (user_guesses pz)))
      ∧ c ∈ unguessed pz ∧ (p, c) ∈ cipher_mapping pz.
Proof.
  unfold give_hint. destruct (unguessed pz) as [|c0 seq] eqn:Hun; auto.
  destruct (find_cipher _ _) as [p|] eqn:Hf; auto.
  right. exists (choice r (c0 :: seq)), p. split_and!; [done | |].
  - by apply choice_elem_of.
  - destruct (find_cipher_Some _ _ _ Hf) as (c & [= <-] & Hin). done.
Qed.

Lemma elem_of_unguessed pz c :
  c ∈ unguessed pz ↔
  c ∈ get_ciphertext pz ∧ isalpha c = true ∧ [c] ∉ dom (user_guesses pz).
Proof. unfold unguessed. rewrite list_elem_of_filter. tauto. Qed.

(** *** Invariants of the reachable states *)

Lemma make_guess_frame pz cipher_char plain_char :
  plaintext (make_guess pz cipher_char plain_char).2 = plaintext pz
  ∧ cipher_mapping (make_guess pz cipher_char plain_char).2 = cipher_mapping pz.
Proof. destruct (make_guess_cases pz cipher_char plain_char) as [-> | [-> _]]; done. Qed.

Lemma undo_guess_frame pz cipher_char :
  plaintext (undo_guess pz cipher_char).2 = plaintext pz
  ∧ cipher_mapping (undo_guess pz cipher_char).2 = cipher_mapping pz.
Proof. destruct (undo_guess_cases pz cipher_char) as [[-> _] | [-> _]]; done. Qed.

Lemma give_hint_frame pz r :
  plaintext (give_hint pz r).2 = plaintext pz
  ∧ cipher_mapping (give_hint pz r).2 = cipher_mapping pz.
Proof. destruct (give_hint_cases pz r) as [-> | (c & p & -> & _)]; done. Qed.

Lemma reachable_mapping pz :
  reachable pz →
  ∃ shuffled, Permutation ascii_uppercase shuffled
              ∧ cipher_mapping pz = generate_cipher shuffled.
Proof.
  induction 1 as [shuffled text Hp | pz cc pc _ IH | pz cc _ IH | pz _ IH | pz r _ IH].
  - by exists shuffled.
  - by rewrite (proj2 (make_guess_frame pz cc pc)).
  - by rewrite (proj2 (undo_guess_frame pz cc)).
  - done.
  - by rewrite (proj2 (give_hint_frame pz r)).
Qed.

Lemma reachable_keys pz :
  reachable pz → map fst (cipher_mapping pz) = ascii_lowercase.
Proof.
  intros (shuffled & Hp & ->)%reachable_mapping.
  by apply generate_cipher_fst, shuffled_length.
Qed.

Lemma reachable_values_NoDup pz :
  reachable pz → NoDup (map snd (cipher_mapping pz)).
Proof.
  intros (shuffled & Hp & ->)%reachable_mapping.
  rewrite generate_cipher_snd by by apply shuffled_length.
  rewrite <- Hp. apply ascii_uppercase_NoDup.
Qed.

Lemma reachable_values pz :
  reachable pz → Permutation ascii_uppercase (map snd (cipher_mapping pz)).
Proof.
  intros (shuffled & Hp & ->)%reachable_mapping.
  by rewrite generate_cipher_snd by by apply shuffled_length.
Qed.

Lemma consistent_insert pz c p :
  consistent pz → (p, c) ∈ cipher_mapping pz →
  consistent (set_guesses pz (<[[c] := [p]]> (user_guesses pz))).
Proof.
  intros Hc Hin k v. simpl. rewrite lookup_insert. case_decide as Hk.
  - intros [= <-]. subst k. by exists c, p.
  - apply Hc.
Qed.

Lemma consistent_delete pz k :
  consistent pz → consistent (set_guesses pz (delete k (user_guesses pz))).
Proof.
  intros Hc k' v. simpl. rewrite lookup_delete. case_decide; [done | apply Hc].
Qed.

Lemma reachable_consistent pz : reachable pz → consistent pz.
Proof.
  induction 1 as [shuffled text Hp | pz cc pc _ IH | pz cc _ IH | pz _ IH | pz r _ IH].
  - intros k v. simpl. by rewrite lookup_empty.
  - destruct (make_guess_cases pz cc pc) as [-> | (-> & _ & _ & c & p & -> & -> & Hin)];
      [done | by apply consistent_insert].
  - destruct (undo_guess_cases pz cc) as [[-> _] | [-> _]];
      [done | by apply consistent_delete].
  - intros k v. simpl. by rewrite lookup_empty.
  - destruct (give_hint_cases pz r) as [-> | (c & p & -> & _ & Hin)];
      [done | by apply consistent_insert].
Qed.

(** C1. In every reachable puzzle each entry of [user_guesses] is an item
    of the true mapping read backwards, and a call that reports failure
    ([make_guess] or [undo_guess] returning [False], [give_hint] returning
    [None]) leaves the puzzle as it was. *)
Theorem revealed_agrees_with_mapping pz :
  reachable pz →
  (∀ cipher_char plain_char,
      user_guesses pz !! cipher_char = Some plain_char →
      ∃ c p, cipher_char = [c] ∧ plain_char = [p]
             ∧ (p, c) ∈ cipher_mapping pz)
  ∧ (∀ cipher_char plain_char,
      (make_guess pz cipher_char plain_char).1 = false →
      (make_guess pz cipher_char plain_char).2 = pz)
  ∧ (∀ cipher_char,
      (undo_guess pz cipher_char).1 = false →
      (undo_guess pz cipher_char).2 = pz)
  ∧ (∀ r, (give_hint pz r).1 = None → (give_hint pz r).2 = pz).
Proof.
  intros Hr. split_and!.
  - apply (reachable_consistent pz Hr).
  - intros cc pc. by destruct (make_guess_cases pz cc pc) as [-> | [-> _]].
  - intros cc. by destruct (undo_guess_cases pz cc) as [[-> _] | [-> _]].
  - intros r. by destruct (give_hint_cases pz r) as [-> | (c & p & -> & _)].
Qed.

(** *** Guessing *)

Lemma ascii_isupper_ascii c : ascii_isupper c = true → is_ascii c = true.
Proof.
  unfold ascii_isupper, is_ascii.
  rewrite andb_true_iff, !N.leb_le, N.ltb_lt. lia.
Qed.

Lemma ascii_islower_ascii c : ascii_islower c = true → is_ascii c = true.
Proof.
  unfold ascii_islower, is_ascii.
  rewrite andb_true_iff, !N.leb_le, N.ltb_lt. lia.
Qed.

Lemma ascii_uppercase_range c : c ∈ ascii_uppercase → ascii_isupper c = true.
Proof.
  revert c. apply Forall_forall, (bool_decide_unpack _). vm_compute. exact I.
Qed.

Lemma ascii_lowercase_range c : c ∈ ascii_lowercase → ascii_islower c = true.
Proof.
  revert c. apply Forall_forall, (bool_decide_unpack _). vm_compute. exact I.
Qed.

Lemma isupper_cipher_letter c : c ∈ ascii_uppercase → isupper [c] = true.
Proof.
  intros Hr%ascii_uppercase_range. simpl. unfold char_isupper.
  by rewrite (ascii_isupper_ascii _ Hr).
Qed.

Lemma islower_plain_letter p : p ∈ ascii_lowercase → islower [p] = true.
Proof.
  intros Hr%ascii_lowercase_range. simpl. unfold char_islower.
  by rewrite (ascii_islower_ascii _ Hr).
Qed.

Lemma isalpha_cipher_letter c : c ∈ ascii_uppercase → isalpha c = true.
Proof.
  intros Hr%ascii_uppercase_range. unfold isalpha.
  by rewrite (ascii_isupper_ascii _ Hr), Hr.
Qed.

Lemma mapping_item_letters pz p c :
  reachable pz → (p, c) ∈ cipher_mapping pz →
  p ∈ ascii_lowercase ∧ c ∈ ascii_uppercase.
Proof.
  intros Hr Hin. split.
  - rewrite <- (reachable_keys pz Hr). apply list_elem_of_fmap. by exists (p, c).
  - rewrite (reachable_values pz Hr). apply list_elem_of_fmap. by exists (p, c).
Qed.

Lemma set_guesses_id pz : set_guesses pz (user_guesses pz) = pz.
Proof. by destruct pz. Qed.

(** C2. [make_guess] returns [False] without touching the puzzle unless
    the cipher token is uppercase and the plain token lowercase; when they
    are, it returns [True] and stores the pair exactly when the plain token
    is the true letter of the cipher token, and otherwise returns [False]
    with the puzzle untouched. *)
Theorem make_guess_spec pz cipher_char plain_char :
  reachable pz →
  (isupper cipher_char && islower plain_char = false →
     make_guess pz cipher_char plain_char = (false, pz))
  ∧ (isupper cipher_char && islower plain_char = true →
     (true_letter pz cipher_char plain_char →
        make_guess pz cipher_char plain_char
          = (true, set_guesses pz (<[cipher_char := plain_char]> (user_guesses pz))))
     ∧ (¬ true_letter pz cipher_char plain_char →
        make_guess pz cipher_char plain_char = (false, pz))).
Proof.
  intros Hr. split; [|intros Hcase; split].
  - intros Hcase. unfold make_guess. by rewrite Hcase.
  - intros (c & p & -> & -> & Hin). unfold make_guess. rewrite Hcase. simpl.
    rewrite (find_cipher_unique _ p c) by (by apply reachable_values_NoDup || done).
    by rewrite bool_decide_eq_true_2.
  - intros Hwrong.
    destruct (make_guess_cases pz cipher_char plain_char)
      as [-> | (_ & _ & _ & Hok)]; [done | by destruct Hwrong].
Qed.

(** C10. Guessing again an entry that is already revealed returns [True]
    and leaves the puzzle exactly as it was. *)
Theorem make_guess_again pz cipher_char plain_char :
  reachable pz →
  user_guesses pz !! cipher_char = Some plain_char →
  make_guess pz cipher_char plain_char = (true, pz).
Proof.
  intros Hr Hlook.
  destruct (reachable_consistent pz Hr _ _ Hlook) as (c & p & -> & -> & Hin).
  destruct (mapping_item_letters pz p c Hr Hin) as [Hp Hc].
  unfold make_guess.
  rewrite (isupper_cipher_letter c Hc), (islower_plain_letter p Hp). simpl.
  rewrite (find_cipher_unique _ p c) by (by apply reachable_values_NoDup || done).
  rewrite bool_decide_eq_true_2 by done.
  by rewrite insert_id, set_guesses_id.
Qed.

(** C7 (amended). After a [make_guess] that returned [True], [undo_guess] of
    the same cipher letter returns [True] and removes that letter from
    [user_guesses]; the puzzle is back exactly as before the guess when the
    letter was not revealed before it. *)
Theorem undo_after_guess pz cipher_char plain_char :
  (make_guess pz cipher_char plain_char).1 = true →
  (undo_guess (make_guess pz cipher_char plain_char).2 cipher_char).1 = true
  ∧ user_guesses (undo_guess (make_guess pz cipher_char plain_char).2 cipher_char).2
    = delete cipher_char (user_guesses pz)
  ∧ (user_guesses pz !! cipher_char = None →
     (undo_guess (make_guess pz cipher_char plain_char).2 cipher_char).2 = pz).
Proof.
  destruct (make_guess_cases pz cipher_char plain_char) as [-> | [-> _]]; [done|].
  intros _. unfold undo_guess. simpl.
  rewrite bool_decide_eq_true_2 by (rewrite dom_insert_L; set_solver).
  simpl. rewrite delete_insert_eq. split_and!; [done | done |].
  intros Hfresh. unfold set_guesses. simpl.
  rewrite delete_id by done. by destruct pz.
Qed.

(** C3. [is_solved] answers [True] exactly when [get_current_guess] is the
    stored plaintext, character for character. *)
Theorem is_solved_iff pz :
  is_solved pz = true ↔ get_current_guess pz = plaintext pz.
Proof. unfold is_solved. apply bool_decide_eq_true. Qed.
End PuzzleProofs.

(** ** The layout of the current guess *)

Lemma concat_pieces {A B} (h : A → list B) (l : list A) :
  Forall (λ a, length (h a) = 1%nat) l →
  length (concat (map h l)) = length l
  ∧ ∀ i a, l !! i = Some a → ∃ b, h a = [b] ∧ concat (map h l) !! i = Some b.
Proof.
  induction 1 as [|a l Ha _ [IHlen IHpos]]; simpl.
  - split; [done | intros i a Hi; by rewrite lookup_nil in Hi].
  - destruct (h a) as [|b [|b' rest]] eqn:Hh; simpl in Ha; try done.
    split; [simpl; by rewrite IHlen|].
    intros [|i] a'; simpl.
    + intros [= <-]. by exists b.
    + apply IHpos.
Qed.

Section LayoutProofs.
Context {U : UnicodeData}.

Lemma guess_piece_length pz ch :
  consistent pz → length (guess_piece (user_guesses pz) ch) = 1%nat.
Proof.
  intros Hc. unfold guess_piece. destruct (isalpha ch); [|done].
  destruct (user_guesses pz !! [ch]) as [v|] eqn:Hv; [|done].
  by destruct (Hc _ _ Hv) as (c & p & _ & -> & _).
Qed.

(** C9. In a reachable puzzle the current guess is as long as the
    ciphertext and, position by position, shows the revealed plaintext
    letter of a revealed alphabetic character, an underscore for an
    alphabetic character that is not revealed, and a character that is not
    alphabetic unchanged. *)
Theorem current_guess_layout pz :
  reachable pz →
  length (get_current_guess pz) = length (get_ciphertext pz)
  ∧ ∀ i ch, get_ciphertext pz !! i = Some ch →
      (isalpha ch = true →
         ∀ plain, user_guesses pz !! [ch] = Some plain →
           ∃ p, plain = [p] ∧ get_current_guess pz !! i = Some p)
      ∧ (isalpha ch = true → user_guesses pz !! [ch] = None →
           get_current_guess pz !! i = Some underscore)
      ∧ (isalpha ch = false → get_current_guess pz !! i = Some ch).
Proof.
  intros Hc%reachable_consistent.
  destruct (concat_pieces (guess_piece (user_guesses pz)) (get_ciphertext pz))
    as [Hlen Hpos].
  { apply Forall_forall. intros ch _. by apply guess_piece_length. }
  split; [exact Hlen|].
  intros i ch Hi. destruct (Hpos i ch Hi) as (b & Hb & Hlook).
  unfold get_current_guess. rewrite Hlook. unfold guess_piece in Hb.
  split_and!.
  - intros Ha plain Hplain. rewrite Ha, Hplain in Hb. subst plain. by exists b.
  - intros Ha Hnone. rewrite Ha, Hnone in Hb. by injection Hb as <-.
  - intros Ha. rewrite Ha in Hb. by injection Hb as <-.
Qed.
End LayoutProofs.

(** ** The whole-text solve *)

Section SolveProofs.
Context {U : UnicodeData}.

Lemma spec_strip_filter (l stripped : str) :
  spec_strip l stripped ↔ stripped = filter (λ ch, isalnum ch = true) l.
Proof.
  split.
  - induction 1 as [|ch l n Hch _ IH | ch l n Hch _ IH].
    + done.
    + rewrite filter_cons_True by done. by rewrite IH.
    + rewrite filter_cons_False by congruence. done.
  - intros ->. induction l as [|ch l IH]; [constructor|].
    destruct (isalnum ch) eqn:Hch.
    + rewrite filter_cons_True by done. by constructor.
    + rewrite filter_cons_False by congruence. by constructor.
Qed.

Lemma spec_normalized_normalize (text normalized : str) :
  spec_normalized text normalized ↔ normalized = normalize text.
Proof. apply spec_strip_filter. Qed.

(** C6. The normalization [!solve] applies is the specified one: the text
    lowercased, then every character that is not alphanumeric removed.  For
    a user with an active puzzle, the check is true, and [!solve] reports
    success, exactly when the guess and the plaintext normalize to the same
    text; whatever the outcome, each puzzle still registered afterwards is
    the one registered before, unchanged. *)
Theorem solve_puzzle_spec (active_puzzles : gmap Z Puzzle) author guess_text puzzle :
  active_puzzles !! author = Some puzzle →
  (∀ text normalized,
     spec_normalized text normalized ↔ normalized = normalize text)
  ∧ (∀ g p,
       spec_normalized guess_text g → spec_normalized (plaintext puzzle) p →
       (solve_attempt puzzle guess_text = true ↔ g = p)
       ∧ ((solve_puzzle active_puzzles author guess_text).1 = Congratulations
          ↔ g = p))
  ∧ (solve_attempt puzzle guess_text = true
     ↔ normalize guess_text = normalize (plaintext puzzle))
  ∧ ((solve_puzzle active_puzzles author guess_text).1 = Congratulations
     ↔ normalize guess_text = normalize (plaintext puzzle))
  ∧ (∀ user pz,
       (solve_puzzle active_puzzles author guess_text).2 !! user = Some pz →
       active_puzzles !! user = Some pz).
Proof.
  intros Hact. unfold solve_puzzle. rewrite Hact.
  assert (Hiff : solve_attempt puzzle guess_text = true
                 ↔ normalize guess_text = normalize (plaintext puzzle))
    by apply bool_decide_eq_true.
  assert (Hreply : (if solve_attempt puzzle guess_text
                    then (Congratulations, delete author active_puzzles)
                    else (NoMatch, active_puzzles)).1 = Congratulations
                   ↔ normalize guess_text = normalize (plaintext puzzle)).
  { destruct (solve_attempt puzzle guess_text); simpl.
    - split; [intros _; by apply Hiff | done].
    - split; [done | intros Heq%Hiff; done]. }
  split_and!.
  - apply spec_normalized_normalize.
  - intros g p ->%spec_normalized_normalize ->%spec_normalized_normalize.
    by split.
  - exact Hiff.
  - exact Hreply.
  - intros user pz. destruct (solve_attempt puzzle guess_text); simpl; [|done].
    rewrite lookup_delete. by case_decide.
Qed.
End SolveProofs.

(** ** Hints *)

Lemma dict_get_cases (m : list (char * char)) k dflt :
  ((k ∉ map fst m) ∧ dict_get m k dflt = dflt) ∨ (k, dict_get m k dflt) ∈ m.
Proof.
  induction m as [|[k' v] m IH]; simpl.
  - left. split; [apply not_elem_of_nil | done].
  - case_bool_decide as Heq.
    + right. subst k'. left.
    + destruct IH as [[Hnotin Hd] | Hin].
      * left. split; [|done]. apply not_elem_of_cons. split; [congruence | done].
      * right. by right.
Qed.

Section HintProofs.
Context {U : UnicodeData}.

Lemma give_hint_hidden pz r c p pz' :
  reachable pz → give_hint pz r = (Some (c, p), pz') →
  (length (hidden pz') < length (hidden pz))%nat.
Proof.
  intros Hr Hgive.
  destruct (give_hint_cases pz r) as [Hnone | (c' & p' & Hsome & Hun & Hin)];
    [congruence|].
  rewrite Hsome in Hgive. injection Hgive as -> -> <-.
  apply elem_of_unguessed in Hun as (_ & _ & Hfresh).
  destruct (mapping_item_letters pz p c Hr Hin) as [_ Hc].
  assert (hidden (set_guesses pz (<[[c] := [p]]> (user_guesses pz)))
          = filter (λ a, a ≠ c) (hidden pz)) as ->.
  { unfold hidden. simpl. rewrite list_filter_filter. apply list_filter_iff.
    intros a. rewrite dom_insert_L, not_elem_of_union, not_elem_of_singleton.
    split; [intros [Hne Hd]; split; [congruence | done]
           | intros [Hne Hd]; split; [congruence | done]]. }
  apply (length_filter_lt _ _ c); [|by intros Hne].
  unfold hidden. apply list_elem_of_filter. by split.
Qed.

Lemma hidden_bound pz : (length (hidden pz) ≤ 26)%nat.
Proof.
  unfold hidden.
  etransitivity; [apply length_filter | by rewrite ascii_uppercase_length].
Qed.

Lemma exhaust_hints_terminates fuel : ∀ draws pz,
  reachable pz → (length (hidden pz) < fuel)%nat →
  ∃ k pz', exhaust_hints fuel draws pz = Some (k, pz')
           ∧ reachable pz' ∧ plaintext pz' = plaintext pz
           ∧ (give_hint pz' (draws k)).1 = None.
Proof.
  induction fuel as [|fuel IH]; intros draws pz Hr Hlt; [lia|].
  simpl. destruct (give_hint pz (draws O)) as [[[c p]|] pz1] eqn:Hgive.
  - assert (Hr1 : reachable pz1).
    { change pz1 with (Some (c, p), pz1).2. rewrite <- Hgive.
      by apply reach_give_hint. }
    pose proof (give_hint_hidden _ _ _ _ _ Hr Hgive) as Hdec.
    destruct (IH (λ n, draws (S n)) pz1 Hr1 ltac:(lia))
      as (k & pz' & -> & Hr' & Hplain & Hnone).
    exists (S k), pz'. split_and!; try done.
    rewrite Hplain. change (plaintext pz1) with (plaintext (Some (c, p), pz1).2).
    rewrite <- Hgive. apply give_hint_frame.
  - destruct (give_hint_cases pz (draws O)) as [Hn | (c & p & Hs & _)];
      [|congruence].
    assert (pz1 = pz) as -> by congruence.
    exists O, pz. by rewrite Hgive.
Qed.

Lemma give_hint_None_unguessed pz r :
  reachable pz → ascii_letters_only pz →
  (give_hint pz r).1 = None → unguessed pz = [].
Proof.
  intros Hr Hascii Hnone. unfold give_hint in Hnone.
  destruct (unguessed pz) as [|c0 seq] eqn:Hun; [done|]. exfalso.
  pose proof (choice_elem_of r (c0 :: seq) ltac:(done)) as Hch.
  rewrite <- Hun in Hch at 2.
  apply elem_of_unguessed in Hch as (Hct & Halpha & _).
  unfold get_ciphertext in Hct.
  apply list_elem_of_fmap in Hct as (x & Hx & Hxin).
  destruct (dict_get_cases (cipher_mapping pz) x x) as [[Hnotin Hd] | Hin].
  - apply Hnotin. rewrite (reachable_keys pz Hr).
    apply Hascii; [done|]. by rewrite <- Hd, <- Hx.
  - rewrite <- Hx in Hin.
    rewrite (find_cipher_unique _ x _ (reachable_values_NoDup pz Hr) Hin)
      in Hnone.
    done.
Qed.

Lemma unguessed_nil_solved pz :
  reachable pz → ascii_letters_only pz →
  unguessed pz = [] → get_current_guess pz = plaintext pz.
Proof.
  intros Hr Hascii Hun. unfold get_current_guess.
  assert (Hpiece : ∀ x, x ∈ plaintext pz →
            guess_piece (user_guesses pz) (dict_get (cipher_mapping pz) x x) = [x]).
  { intros x Hx. unfold guess_piece.
    destruct (dict_get_cases (cipher_mapping pz) x x) as [[Hnotin ->] | Hin].
    - destruct (isalpha x) eqn:Ha; [|done]. exfalso. apply Hnotin.
      rewrite (reachable_keys pz Hr). by apply Hascii.
    - set (c := dict_get (cipher_mapping pz) x x) in *.
      destruct (mapping_item_letters pz x c Hr Hin) as [_ Hc].
      rewrite (isalpha_cipher_letter c Hc).
      assert (Hdom : [c] ∈ dom (user_guesses pz)).
      { destruct (decide ([c] ∈ dom (user_guesses pz))) as [|Hfresh]; [done|].
        exfalso. apply (filter_nil_not_elem_of _ _ c Hun).
        - split; [by apply isalpha_cipher_letter | done].
        - unfold get_ciphertext. apply list_elem_of_fmap. by exists x. }
      apply elem_of_dom in Hdom as [v Hv]. rewrite Hv.
      destruct (reachable_consistent pz Hr _ _ Hv) as (c' & p & [= <-] & -> & Hin').
      pose proof (reachable_values_NoDup pz Hr) as Hnd.
      pose proof (find_cipher_unique _ _ _ Hnd Hin) as H1.
      pose proof (find_cipher_unique _ _ _ Hnd Hin') as H2.
      congruence. }
  unfold get_ciphertext. revert Hpiece.
  generalize (plaintext pz). clear.
  induction l as [|x l IH]; intros Hpiece; [done|]. simpl.
  rewrite Hpiece by left. simpl. f_equal. apply IH.
  intros y Hy. apply Hpiece. by right.
Qed.

(** On a plaintext whose letters are all covered by the mapping,
    [give_hint] returns [None] only when nothing is left to reveal, and
    otherwise reveals an unguessed letter the way a correct [make_guess]
    does. *)
Lemma give_hint_ascii pz r :
  reachable pz → ascii_letters_only pz →
  ((give_hint pz r).1 = None ↔ unguessed pz = [])
  ∧ ∀ c p, (give_hint pz r).1 = Some (c, p) →
      c ∈ unguessed pz
      ∧ make_guess pz [c] [p] = (true, (give_hint pz r).2).
Proof.
  intros Hr Hascii. split.
  - split; [by apply give_hint_None_unguessed|].
    intros Hun. unfold give_hint. by rewrite Hun.
  - intros c p Hsome.
    destruct (give_hint_cases pz r) as [Hn | (c' & p' & Hs & Hun & Hin)];
      [by rewrite Hn in Hsome|].
    rewrite Hs in Hsome |- *. injection Hsome as -> ->. split; [done|].
    destruct (mapping_item_letters pz p c Hr Hin) as [Hp Hc].
    unfold make_guess.
    rewrite (isupper_cipher_letter c Hc), (islower_plain_letter p Hp). simpl.
    rewrite (find_cipher_unique _ p c) by (by apply reachable_values_NoDup || done).
    by rewrite bool_decide_eq_true_2.
Qed.

(** C5 (amended). From any reachable puzzle, calling [give_hint] again and
    again reaches a call that returns [None] within 27 calls, whatever the
    draws; if every alphabetic character of the plaintext is one of the 26
    lowercase ASCII letters, the puzzle is then solved. *)
Theorem hint_exhaustion pz draws :
  reachable pz →
  ∃ k pz',
    exhaust_hints 27 draws pz = Some (k, pz')
    ∧ (give_hint pz' (draws k)).1 = None
    ∧ (ascii_letters_only pz → is_solved pz' = true).
Proof.
  intros Hr.
  destruct (exhaust_hints_terminates 27 draws pz Hr)
    as (k & pz' & Hex & Hr' & Hplain & Hnone).
  { pose proof (hidden_bound pz). lia. }
  exists k, pz'. split_and!; [done | done |].
  intros Hascii. apply bool_decide_eq_true.
  assert (Hascii' : ascii_letters_only pz').
  { unfold ascii_letters_only. by rewrite Hplain. }
  apply unguessed_nil_solved; [done | done |].
  by apply (give_hint_None_unguessed pz' (draws k)).
Qed.
End HintProofs.

(** ** The model run on the sample puzzles *)

Section Samples.
Local Existing Instance Latin1.

Lemma sample_shuffle_Permutation : Permutation ascii_uppercase sample_shuffle.
Proof. apply (bool_decide_unpack _). vm_compute. exact I. Qed.

Lemma hi_there_reachable : reachable hi_there.
Proof. apply reach_new, sample_shuffle_Permutation. Qed.

Lemma hi_there_Q_reachable : reachable hi_there_Q.
Proof. apply reach_make_guess, hi_there_reachable. Qed.

Lemma cafe_reachable : reachable cafe.
Proof. apply reach_new, sample_shuffle_Permutation. Qed.

(** The worked example: ciphertext, first layout, layout after Q = h, and
    a wrong guess. *)
Example hi_there_ciphertext : get_ciphertext hi_there = codes "QZ MQXKX".
Proof. reflexivity. Qed.

Example hi_there_first_guess : get_current_guess hi_there = codes "__ _____".
Proof. reflexivity. Qed.

Example hi_there_after_Q : get_current_guess hi_there_Q = codes "h_ _h___".
Proof. vm_compute. reflexivity. Qed.

Example hi_there_wrong_guess :
  make_guess hi_there (codes "Q") (codes "x") = (false, hi_there).
Proof. vm_compute. reflexivity. Qed.

(** The whole-text scenarios against the plaintext "hi there". *)
Example solve_scenarios :
  solve_attempt hi_there (codes "Hi, there!") = true
  ∧ solve_attempt hi_there (codes "hithere") = true
  ∧ solve_attempt hi_there (codes "hi there!!") = true
  ∧ solve_attempt hi_there (codes "hithereextra") = false.
Proof. vm_compute. done. Qed.

Lemma generate_cipher_bijection_witness :
  Permutation ascii_uppercase sample_shuffle
  ∧ length (generate_cipher sample_shuffle) = 26%nat
  ∧ NoDup (map snd (generate_cipher sample_shuffle)).
Proof.
  split; [exact sample_shuffle_Permutation|].
  pose proof (generate_cipher_bijection sample_shuffle sample_shuffle_Permutation)
    as (Hlen & _ & _ & _ & Hnd).
  split; [exact Hlen | exact Hnd].
Defined.

Lemma revealed_agrees_with_mapping_witness :
  reachable hi_there_Q
  ∧ ∃ c p, codes "Q" = [c] ∧ codes "h" = [p]
           ∧ (p, c) ∈ cipher_mapping hi_there_Q.
Proof.
  split; [exact hi_there_Q_reachable|].
  apply (proj1 (revealed_agrees_with_mapping hi_there_Q hi_there_Q_reachable)).
  vm_compute. reflexivity.
Defined.

Lemma make_guess_spec_witness :
  reachable hi_there
  ∧ make_guess hi_there (codes "Q") (codes "h")
    = (true, set_guesses hi_there
               (<[codes "Q" := codes "h"]> (user_guesses hi_there)))
  ∧ make_guess hi_there (codes "q") (codes "h") = (false, hi_there).
Proof.
  split; [exact hi_there_reachable|].
  split.
  - destruct (make_guess_spec hi_there (codes "Q") (codes "h") hi_there_reachable)
      as [_ Hcase].
    apply Hcase; [reflexivity|].
    exists 81, 104. split_and!; [reflexivity | reflexivity |].
    apply (bool_decide_unpack _). vm_compute. exact I.
  - destruct (make_guess_spec hi_there (codes "q") (codes "h") hi_there_reachable)
      as [Hreject _].
    apply Hreject. reflexivity.
Defined.

Lemma make_guess_again_witness :
  reachable hi_there_Q
  ∧ user_guesses hi_there_Q !! codes "Q" = Some (codes "h")
  ∧ make_guess hi_there_Q (codes "Q") (codes "h") = (true, hi_there_Q).
Proof.
  split; [exact hi_there_Q_reachable|].
  assert (Hl : user_guesses hi_there_Q !! codes "Q" = Some (codes "h"))
    by (vm_compute; reflexivity).
  split; [exact Hl|].
  exact (make_guess_again hi_there_Q _ _ hi_there_Q_reachable Hl).
Defined.

Lemma undo_after_guess_witness :
  (make_guess hi_there (codes "Q") (codes "h")).1 = true
  ∧ user_guesses hi_there !! codes "Q" = None
  ∧ (undo_guess (make_guess hi_there (codes "Q") (codes "h")).2 (codes "Q")).1 = true
  ∧ (undo_guess (make_guess hi_there (codes "Q") (codes "h")).2 (codes "Q")).2
    = hi_there.
Proof.
  assert (Hg : (make_guess hi_there (codes "Q") (codes "h")).1 = true)
    by reflexivity.
  assert (Hn : user_guesses hi_there !! codes "Q" = None)
    by (vm_compute; reflexivity).
  split; [exact Hg|]. split; [exact Hn|].
  pose proof (undo_after_guess hi_there (codes "Q") (codes "h") Hg)
    as (Ht & _ & Hback).
  split; [exact Ht | exact (Hback Hn)].
Defined.

(** C7, as stated, fails: guessing Q = h a second time and then undoing Q
    leaves no entry for Q, although Q was revealed before that guess. *)
Lemma undo_after_repeated_guess :
  reachable hi_there_Q
  ∧ (make_guess hi_there_Q (codes "Q") (codes "h")).1 = true
  ∧ (undo_guess (make_guess hi_there_Q (codes "Q") (codes "h")).2 (codes "Q")).1
    = true
  ∧ user_guesses
      (undo_guess (make_guess hi_there_Q (codes "Q") (codes "h")).2 (codes "Q")).2
    ≠ user_guesses hi_there_Q.
Proof.
  split; [exact hi_there_Q_reachable|].
  split; [vm_compute; reflexivity|]. split; [vm_compute; reflexivity|].
  intros Heq.
  assert (Hl : user_guesses hi_there_Q !! codes "Q" = Some (codes "h"))
    by (vm_compute; reflexivity).
  rewrite <- Heq in Hl. vm_compute in Hl. discriminate Hl.
Qed.

Lemma current_guess_layout_witness :
  reachable hi_there_Q
  ∧ length (get_current_guess hi_there_Q) = length (get_ciphertext hi_there_Q)
  ∧ get_current_guess hi_there_Q !! 1%nat = Some underscore
  ∧ get_current_guess hi_there_Q !! 2%nat = Some 32.
Proof.
  split; [exact hi_there_Q_reachable|].
  pose proof (current_guess_layout hi_there_Q hi_there_Q_reachable)
    as [Hlen Hpos].
  split; [exact Hlen|]. split.
  - destruct (Hpos 1%nat 90 eq_refl) as (_ & Hhidden & _).
    apply Hhidden; [reflexivity | vm_compute; reflexivity].
  - destruct (Hpos 2%nat 32 eq_refl) as (_ & _ & Hother).
    apply Hother. reflexivity.
Defined.

Lemma solve_puzzle_spec_witness :
  ({[ 7%Z := hi_there ]} : gmap Z Puzzle) !! 7%Z = Some hi_there
  ∧ spec_normalized (codes "Hi, there!") (codes "hithere")
  ∧ spec_normalized (plaintext hi_there) (codes "hithere")
  ∧ (solve_puzzle {[ 7%Z := hi_there ]} 7 (codes "Hi, there!")).1
    = Congratulations.
Proof.
  assert (Hact : ({[ 7%Z := hi_there ]} : gmap Z Puzzle) !! 7%Z = Some hi_there)
    by apply lookup_singleton_eq.
  destruct (solve_puzzle_spec _ 7%Z (codes "Hi, there!") hi_there Hact)
    as (Hnorm & Hsolve & _).
  assert (Hg : spec_normalized (codes "Hi, there!") (codes "hithere"))
    by (apply Hnorm; vm_compute; reflexivity).
  assert (Hp : spec_normalized (plaintext hi_there) (codes "hithere"))
    by (apply Hnorm; vm_compute; reflexivity).
  split; [exact Hact|]. split; [exact Hg|]. split; [exact Hp|].
  by apply (Hsolve _ _ Hg Hp).
Defined.

Lemma hi_there_ascii_letters_only : ascii_letters_only hi_there.
Proof.
  unfold ascii_letters_only.
  refine (proj1 (Forall_forall
                   (λ c, isalpha c = true → c ∈ ascii_lowercase)
                   (plaintext hi_there)) _).
  apply (bool_decide_unpack _). vm_compute. exact I.
Qed.

Lemma hint_exhaustion_witness :
  reachable hi_there
  ∧ ∃ k pz', exhaust_hints 27 (λ n, n) hi_there = Some (k, pz')
             ∧ is_solved pz' = true.
Proof.
  split; [exact hi_there_reachable|].
  destruct (hint_exhaustion hi_there (λ n, n) hi_there_reachable)
    as (k & pz' & Hex & _ & Hsolved).
  exists k, pz'. split; [exact Hex|].
  apply Hsolved, hi_there_ascii_letters_only.
Defined.

(** C5, as stated, fails: on "café" the hints reveal c, a and f, the next
    call returns [None], and the puzzle is not solved. *)
Lemma hints_exhausted_unsolved :
  reachable cafe
  ∧ ∃ pz', exhaust_hints 27 (λ _, 0%nat) cafe = Some (3%nat, pz')
           ∧ (give_hint pz' 0).1 = None
           ∧ get_current_guess pz' = codes "caf_"
           ∧ is_solved pz' = false.
Proof.
  split; [exact cafe_reachable|].
  eexists. split; [vm_compute; reflexivity|].
  split_and!; vm_compute; reflexivity.
Qed.

(** C4 at a failing input: on the fresh puzzle for "café" the unguessed
    list holds the cipher letters C, A, E and é; when the draw lands on é,
    [give_hint] returns [None] and reveals nothing, although three letters
    could be revealed (and are, on another draw). *)
Lemma give_hint_none_with_letters_left :
  reachable cafe
  ∧ unguessed cafe = [67; 65; 69; 233]
  ∧ give_hint cafe 3 = (None, cafe)
  ∧ (give_hint cafe 0).1 = Some (67, 99).
Proof.
  split; [exact cafe_reachable|].
  split_and!; vm_compute; reflexivity.
Qed.
End Samples.

(** * Further properties of the puzzle *)

(** ** Encoding and decoding *)

Lemma dict_get_unique (m : list (char * char)) k v dflt :
  NoDup (map fst m) → (k, v) ∈ m → dict_get m k dflt = v.
Proof.
  induction m as [|[k' v'] m IH]; simpl.
  - intros _ Hin. by apply elem_of_nil in Hin.
  - intros [Hnotin Hnd]%NoDup_cons [Heq | Hin]%elem_of_cons.
    + injection Heq as -> ->. by rewrite bool_decide_eq_true_2.
    + case_bool_decide as Heq; [|by apply IH].
      subst k'. exfalso. apply Hnotin. apply list_elem_of_fmap. by exists (k, v).
Qed.

Section EncodingProofs.
Context {U : UnicodeData}.

Lemma reachable_keys_NoDup pz : reachable pz → NoDup (map fst (cipher_mapping pz)).
Proof. intros Hr. rewrite (reachable_keys pz Hr). apply ascii_lowercase_NoDup. Qed.

Lemma isalpha_plain_letter p : p ∈ ascii_lowercase → isalpha p = true.
Proof.
  intros Hr%ascii_lowercase_range. unfold isalpha.
  rewrite (ascii_islower_ascii _ Hr), Hr. apply orb_true_r.
Qed.

Lemma encode_letter pz p :
  reachable pz → p ∈ ascii_lowercase →
  (p, dict_get (cipher_mapping pz) p p) ∈ cipher_mapping pz.
Proof.
  intros Hr Hp.
  destruct (dict_get_cases (cipher_mapping pz) p p) as [[Hnotin _] | Hin]; [|done].
  exfalso. apply Hnotin. by rewrite (reachable_keys pz Hr).
Qed.

Lemma encode_other pz c :
  reachable pz → c ∉ ascii_lowercase → dict_get (cipher_mapping pz) c c = c.
Proof.
  intros Hr Hc.
  destruct (dict_get_cases (cipher_mapping pz) c c) as [[_ Hd] | Hin]; [done|].
  exfalso. apply Hc. by apply (mapping_item_letters pz c _ Hr Hin).
Qed.

(** X1. Encoding a plaintext letter and scanning the mapping for the result
    gives the letter back; scanning for a cipher letter and encoding the
    result gives the cipher letter back. *)
Theorem encode_decode_round_trip pz :
  reachable pz →
  (∀ p, p ∈ ascii_lowercase →
     dict_get (cipher_mapping pz) p p ∈ ascii_uppercase
     ∧ find_cipher (cipher_mapping pz) [dict_get (cipher_mapping pz) p p] = Some p)
  ∧ (∀ c, c ∈ ascii_uppercase →
     ∃ p, find_cipher (cipher_mapping pz) [c] = Some p
          ∧ p ∈ ascii_lowercase
          ∧ dict_get (cipher_mapping pz) p p = c).
Proof.
  intros Hr. split.
  - intros p Hp. pose proof (encode_letter pz p Hr Hp) as Hin. split.
    + by apply (mapping_item_letters pz p _ Hr Hin).
    + by apply find_cipher_unique; [apply reachable_values_NoDup|].
  - intros c Hc. rewrite (reachable_values pz Hr) in Hc.
    apply list_elem_of_fmap in Hc as ([p c'] & -> & Hin). simpl.
    exists p. split_and!.
    + by apply find_cipher_unique; [apply reachable_values_NoDup|].
    + by apply (mapping_item_letters pz p c' Hr Hin).
    + by apply dict_get_unique; [apply reachable_keys_NoDup|].
Qed.

(** X2. The ciphertext is as long as the plaintext; position by position a
    lowercase ASCII letter is replaced by its uppercase cipher letter and
    every other character (digit, space, punctuation, letter outside a-z)
    is passed through unchanged. *)
Theorem ciphertext_layout pz :
  reachable pz →
  length (get_ciphertext pz) = length (plaintext pz)
  ∧ ∀ i c, plaintext pz !! i = Some c →
      (c ∈ ascii_lowercase →
         ∃ C, get_ciphertext pz !! i = Some C ∧ C ∈ ascii_uppercase
              ∧ (c, C) ∈ cipher_mapping pz)
      ∧ (c ∉ ascii_lowercase → get_ciphertext pz !! i = Some c).
Proof.
  intros Hr. unfold get_ciphertext. split; [apply length_map|].
  intros i c Hi.
  change (map ?f ?l) with (f <$> l). rewrite list_lookup_fmap, Hi. simpl. split.
  - intros Hc. pose proof (encode_letter pz c Hr Hc) as Hin.
    eexists. split_and!; [done | | done].
    by apply (mapping_item_letters pz c _ Hr Hin).
  - intros Hc. by rewrite (encode_other pz c Hr Hc).
Qed.

(** X3. No mutator touches the plaintext or the mapping: the ciphertext of a
    puzzle is the same after any guess, undo, clear or hint. *)
Theorem ciphertext_stable pz :
  (∀ cipher_char plain_char,
     get_ciphertext (make_guess pz cipher_char plain_char).2 = get_ciphertext pz)
  ∧ (∀ cipher_char, get_ciphertext (undo_guess pz cipher_char).2 = get_ciphertext pz)
  ∧ get_ciphertext (clear_guesses pz) = get_ciphertext pz
  ∧ (∀ r, get_ciphertext (give_hint pz r).2 = get_ciphertext pz).
Proof.
  unfold get_ciphertext. split_and!.
  - intros cc pc. by destruct (make_guess_frame pz cc pc) as [-> ->].
  - intros cc. by destruct (undo_guess_frame pz cc) as [-> ->].
  - done.
  - intros r. by destruct (give_hint_frame pz r) as [-> ->].
Qed.
End EncodingProofs.

(** ** The current guess under guesses, undos and hints *)

Lemma concat_pieces_eq {A} (h : A → list A) (l : list A) :
  Forall (λ a, length (h a) = 1%nat) l →
  concat (map h l) = l ↔ ∀ x, x ∈ l → h x = [x].
Proof.
  induction 1 as [|a l Ha _ IH]; simpl.
  - split; [intros _ x Hx; by apply elem_of_nil in Hx | done].
  - destruct (h a) as [|b [|b' rest]] eqn:Hh; simpl in Ha; try done. simpl.
    split.
    + intros [= -> Hrest] x [-> | Hx]%elem_of_cons; [done | by apply IH].
    + intros Hall. pose proof (Hall a ltac:(left)) as Haa.
      rewrite Hh in Haa. injection Haa as ->. f_equal.
      apply IH. intros x Hx. apply Hall. by right.
Qed.

Section DisplayProofs.
Context {U : UnicodeData}.

Lemma current_guess_lookup pz i ch :
  consistent pz → get_ciphertext pz !! i = Some ch →
  ∃ b, guess_piece (user_guesses pz) ch = [b] ∧ get_current_guess pz !! i = Some b.
Proof.
  intros Hc Hi.
  destruct (concat_pieces (guess_piece (user_guesses pz)) (get_ciphertext pz))
    as [_ Hpos]; [|by apply Hpos].
  apply Forall_forall. intros c _. by apply guess_piece_length.
Qed.

Lemma isalpha_underscore : isalpha underscore = false.
Proof. reflexivity. Qed.

Lemma underscore_not_letter : underscore ∉ ascii_lowercase.
Proof. apply (bool_decide_unpack _). vm_compute. exact I. Qed.

(** In a reachable puzzle the current guess is the plaintext exactly when
    every plaintext character is shown as itself. *)
Lemma solved_pieces pz :
  reachable pz →
  get_current_guess pz = plaintext pz ↔
  ∀ x, x ∈ plaintext pz →
    guess_piece (user_guesses pz) (dict_get (cipher_mapping pz) x x) = [x].
Proof.
  intros Hr. unfold get_current_guess, get_ciphertext.
  rewrite map_map.
  apply (concat_pieces_eq
           (λ x, guess_piece (user_guesses pz) (dict_get (cipher_mapping pz) x x))).
  apply Forall_forall. intros x _. by apply guess_piece_length, reachable_consistent.
Qed.

Lemma solved_unguessed_nil pz :
  reachable pz → is_solved pz = true → unguessed pz = [].
Proof.
  intros Hr Hs%bool_decide_eq_true. rewrite (solved_pieces pz Hr) in Hs.
  destruct (unguessed pz) as [|ch rest] eqn:Hun; [done|]. exfalso.
  assert (Hch : ch ∈ unguessed pz) by (rewrite Hun; left).
  apply elem_of_unguessed in Hch as (Hct & Halpha & Hfresh).
  unfold get_ciphertext in Hct.
  apply list_elem_of_fmap in Hct as (x & -> & Hx).
  specialize (Hs x Hx). unfold guess_piece in Hs. rewrite Halpha in Hs.
  apply not_elem_of_dom in Hfresh. rewrite Hfresh in Hs. injection Hs as <-.
  rewrite (encode_other pz underscore Hr underscore_not_letter) in Halpha.
  by rewrite isalpha_underscore in Halpha.
Qed.

(** X4. A puzzle with nothing revealed (fresh, or after [clear_guesses]) is
    solved exactly when its plaintext has no alphabetic character; in
    particular the puzzle of an empty quote is solved from the start. *)
Theorem unrevealed_solved_iff pz :
  reachable pz → user_guesses pz = ∅ →
  (is_solved pz = true ↔ ∀ c, c ∈ plaintext pz → isalpha c = false).
Proof.
  intros Hr Hempty. unfold is_solved. rewrite bool_decide_eq_true.
  rewrite (solved_pieces pz Hr). rewrite Hempty.
  split; intros Hall x Hx; specialize (Hall x Hx).
  - destruct (decide (x ∈ ascii_lowercase)) as [Hl | Hl].
    + pose proof (encode_letter pz x Hr Hl) as Hin.
      destruct (mapping_item_letters pz x _ Hr Hin) as [_ HC].
      unfold guess_piece in Hall.
      rewrite (isalpha_cipher_letter _ HC), lookup_empty in Hall.
      injection Hall as <-. by destruct underscore_not_letter.
    + rewrite (encode_other pz x Hr Hl) in Hall. unfold guess_piece in Hall.
      destruct (isalpha x) eqn:Ha; [|done].
      rewrite lookup_empty in Hall. injection Hall as <-.
      by rewrite isalpha_underscore in Ha.
  - assert (Hl : x ∉ ascii_lowercase).
    { intros Hl%isalpha_plain_letter. congruence. }
    rewrite (encode_other pz x Hr Hl). unfold guess_piece. by rewrite Hall.
Qed.

(** X5. When the plaintext's letters are all among a-z, a reachable puzzle is
    solved exactly when no letter of its ciphertext is left unguessed. *)
Theorem solved_iff_all_revealed pz :
  reachable pz → ascii_letters_only pz →
  (is_solved pz = true ↔ unguessed pz = []).
Proof.
  intros Hr Hascii. split; [by apply solved_unguessed_nil|].
  intros Hun. apply bool_decide_eq_true. by apply unguessed_nil_solved.
Qed.

(** X6. On a solved puzzle [give_hint] returns [None] and changes nothing,
    whatever the draw. *)
Theorem give_hint_solved pz r :
  reachable pz → is_solved pz = true → give_hint pz r = (None, pz).
Proof.
  intros Hr Hs. unfold give_hint. by rewrite (solved_unguessed_nil pz Hr Hs).
Qed.

Lemma guess_piece_insert_ne (g : gmap str str) c v ch :
  ch ≠ c → guess_piece (<[[c] := v]> g) ch = guess_piece g ch.
Proof.
  intros Hne. unfold guess_piece. destruct (isalpha ch); [|done].
  rewrite lookup_insert_ne; [done | congruence].
Qed.

Lemma guess_piece_delete_ne (g : gmap str str) c ch :
  ch ≠ c → guess_piece (delete [c] g) ch = guess_piece g ch.
Proof.
  intros Hne. unfold guess_piece. destruct (isalpha ch); [|done].
  rewrite lookup_delete_ne; [done | congruence].
Qed.

Lemma current_guess_frame pz g' i ch :
  consistent pz → consistent (set_guesses pz g') →
  get_ciphertext pz !! i = Some ch →
  guess_piece g' ch = guess_piece (user_guesses pz) ch →
  get_current_guess (set_guesses pz g') !! i = get_current_guess pz !! i.
Proof.
  intros Hc Hc' Hi Heq.
  destruct (current_guess_lookup pz i ch Hc Hi) as (b & Hb & ->).
  destruct (current_guess_lookup (set_guesses pz g') i ch Hc' Hi) as (b' & Hb' & ->).
  simpl in Hb'. congruence.
Qed.

(** X7. After a guess that returned [True], the current guess shows the
    guessed plaintext letter at every position of that cipher letter and is
    unchanged at every other position. *)
Theorem make_guess_display pz cipher_char plain_char :
  reachable pz →
  (make_guess pz cipher_char plain_char).1 = true →
  ∃ c p, cipher_char = [c] ∧ plain_char = [p]
    ∧ ∀ i ch, get_ciphertext pz !! i = Some ch →
        (ch = c →
           get_current_guess (make_guess pz cipher_char plain_char).2 !! i = Some p)
        ∧ (ch ≠ c →
           get_current_guess (make_guess pz cipher_char plain_char).2 !! i
           = get_current_guess pz !! i).
Proof.
  intros Hr Hok.
  pose proof (reach_make_guess pz cipher_char plain_char Hr) as Hr'.
  destruct (make_guess_cases pz cipher_char plain_char)
    as [Hf | (Hs & _ & _ & c & p & -> & -> & Hin)]; [by rewrite Hf in Hok|].
  rewrite Hs in Hr' |- *. simpl in *. exists c, p. split_and!; [done | done |].
  intros i ch Hi. split.
  - intros ->.
    destruct (current_guess_lookup _ i c (reachable_consistent _ Hr') Hi)
      as (b & Hb & ->).
    simpl in Hb. unfold guess_piece in Hb.
    rewrite (isalpha_cipher_letter c), lookup_insert_eq in Hb
      by apply (mapping_item_letters pz p c Hr Hin).
    congruence.
  - intros Hne. apply (current_guess_frame pz _ i ch);
      [by apply reachable_consistent | by apply reachable_consistent
      | done | by apply guess_piece_insert_ne].
Qed.

(** X8. After an undo that returned [True], the current guess shows an
    underscore at every position of that cipher letter and is unchanged at
    every other position. *)
Theorem undo_guess_display pz cipher_char :
  reachable pz →
  (undo_guess pz cipher_char).1 = true →
  ∃ c, cipher_char = [c]
    ∧ ∀ i ch, get_ciphertext pz !! i = Some ch →
        (ch = c →
           get_current_guess (undo_guess pz cipher_char).2 !! i = Some underscore)
        ∧ (ch ≠ c →
           get_current_guess (undo_guess pz cipher_char).2 !! i
           = get_current_guess pz !! i).
Proof.
  intros Hr Hok.
  pose proof (reach_undo_guess pz cipher_char Hr) as Hr'.
  destruct (undo_guess_cases pz cipher_char) as [[Hf _] | [Hs [v Hv]]];
    [by rewrite Hf in Hok|].
  destruct (reachable_consistent pz Hr _ _ Hv) as (c & p & -> & -> & Hin).
  rewrite Hs in Hr' |- *. simpl in *. exists c. split; [done|].
  intros i ch Hi. split.
  - intros ->.
    destruct (current_guess_lookup _ i c (reachable_consistent _ Hr') Hi)
      as (b & Hb & ->).
    simpl in Hb. unfold guess_piece in Hb.
    rewrite (isalpha_cipher_letter c), lookup_delete_eq in Hb
      by apply (mapping_item_letters pz p c Hr Hin).
    congruence.
  - intros Hne. apply (current_guess_frame pz _ i ch);
      [by apply reachable_consistent | by apply reachable_consistent
      | done | by apply guess_piece_delete_ne].
Qed.

(** X9. A solved puzzle stays solved under any further [make_guess], right
    or wrong. *)
Theorem make_guess_keeps_solved pz cipher_char plain_char :
  reachable pz → is_solved pz = true →
  is_solved (make_guess pz cipher_char plain_char).2 = true.
Proof.
  intros Hr Hs.
  pose proof (reach_make_guess pz cipher_char plain_char Hr) as Hr'.
  destruct (make_guess_cases pz cipher_char plain_char)
    as [-> | (Hok & _ & _ & c & p & -> & -> & Hin)]; [done|].
  rewrite Hok in Hr' |- *. simpl in *.
  pose proof (solved_unguessed_nil pz Hr Hs) as Hun.
  apply bool_decide_eq_true in Hs. apply bool_decide_eq_true.
  rewrite (solved_pieces _ Hr'). rewrite (solved_pieces pz Hr) in Hs. simpl.
  intros x Hx. rewrite <- (Hs x Hx).
  destruct (decide (dict_get (cipher_mapping pz) x x = c)) as [Heq | Hne];
    [rewrite Heq | by apply guess_piece_insert_ne].
  destruct (mapping_item_letters pz p c Hr Hin) as [_ Hc].
  assert (Hdom : [c] ∈ dom (user_guesses pz)).
  { destruct (decide ([c] ∈ dom (user_guesses pz))) as [|Hfresh]; [done|].
    exfalso. apply (filter_nil_not_elem_of _ _ c Hun).
    - split; [by apply isalpha_cipher_letter | done].
    - unfold get_ciphertext. apply list_elem_of_fmap. by exists x. }
  apply elem_of_dom in Hdom as [v Hv].
  by rewrite insert_id
    by (rewrite Hv; f_equal;
        destruct (reachable_consistent pz Hr _ _ Hv) as (c' & p' & [= <-] & -> & Hin');
        pose proof (reachable_values_NoDup pz Hr) as Hnd;
        pose proof (find_cipher_unique _ _ _ Hnd Hin) as H1;
        pose proof (find_cipher_unique _ _ _ Hnd Hin') as H2; congruence).
Qed.
End DisplayProofs.

(** ** How the mutators compose *)

Section ComposeProofs.
Context {U : UnicodeData}.

(** X10. [undo_guess] returns [True] exactly when the letter had an entry;
    afterwards the letter has none and every other entry is as before, so a
    second undo of the same letter returns [False] and changes nothing. *)
Theorem undo_guess_spec pz cipher_char :
  ((undo_guess pz cipher_char).1 = true
     ↔ is_Some (user_guesses pz !! cipher_char))
  ∧ user_guesses (undo_guess pz cipher_char).2 !! cipher_char = None
  ∧ (∀ k, k ≠ cipher_char →
       user_guesses (undo_guess pz cipher_char).2 !! k = user_guesses pz !! k)
  ∧ undo_guess (undo_guess pz cipher_char).2 cipher_char
    = (false, (undo_guess pz cipher_char).2).
Proof.
  assert (Hgone : user_guesses (undo_guess pz cipher_char).2 !! cipher_char = None).
  { destruct (undo_guess_cases pz cipher_char) as [[-> Hn] | [-> _]]; simpl;
      [done | apply lookup_delete_eq]. }
  split_and!.
  - destruct (undo_guess_cases pz cipher_char) as [[-> Hn] | [-> Hs]]; simpl.
    + rewrite Hn. split; [done | by intros [? ?]].
    + done.
  - done.
  - intros k Hk.
    destruct (undo_guess_cases pz cipher_char) as [[-> _] | [-> _]]; simpl;
      [done | by apply lookup_delete_ne].
  - destruct (undo_guess_cases (undo_guess pz cipher_char).2 cipher_char)
      as [[Hf _] | [_ [v Hv]]]; [done | congruence].
Qed.

Lemma make_guess_guesses pz cipher_char plain_char :
  user_guesses (make_guess pz cipher_char plain_char).2
  = if (make_guess pz cipher_char plain_char).1
    then <[cipher_char := plain_char]> (user_guesses pz)
    else user_guesses pz.
Proof.
  by destruct (make_guess_cases pz cipher_char plain_char) as [-> | [-> _]].
Qed.

(** The answer of [make_guess] depends on the mapping only. *)
Lemma make_guess_answer pz pz' cipher_char plain_char :
  cipher_mapping pz' = cipher_mapping pz →
  (make_guess pz' cipher_char plain_char).1 = (make_guess pz cipher_char plain_char).1.
Proof.
  intros Hm. unfold make_guess. rewrite Hm.
  destruct (negb _); [done|].
  destruct (find_cipher _ _); [|done]. by case_bool_decide.
Qed.

Lemma make_guess_true_functional pz cipher_char plain_char plain_char' :
  (make_guess pz cipher_char plain_char).1 = true →
  (make_guess pz cipher_char plain_char').1 = true →
  plain_char = plain_char'.
Proof.
  unfold make_guess.
  destruct (negb _); [done|]. destruct (negb _); [done|].
  destruct (find_cipher _ _); [|done].
  repeat case_bool_decide; simpl; congruence.
Qed.

Lemma puzzle_eq pz pz' :
  plaintext pz = plaintext pz' → cipher_mapping pz = cipher_mapping pz' →
  user_guesses pz = user_guesses pz' → pz = pz'.
Proof. destruct pz, pz'. simpl. by intros -> -> ->. Qed.

(** X11. The answer of a guess does not depend on the guesses made before
    it, and two guesses made in either order leave the same puzzle. *)
Theorem make_guess_commute pz c1 p1 c2 p2 :
  (make_guess (make_guess pz c1 p1).2 c2 p2).1 = (make_guess pz c2 p2).1
  ∧ (make_guess (make_guess pz c1 p1).2 c2 p2).2
    = (make_guess (make_guess pz c2 p2).2 c1 p1).2.
Proof.
  pose proof (make_guess_frame pz c1 p1) as [Hp1 Hm1].
  pose proof (make_guess_frame pz c2 p2) as [Hp2 Hm2].
  pose proof (make_guess_answer pz _ c2 p2 Hm1) as Ha2.
  pose proof (make_guess_answer pz _ c1 p1 Hm2) as Ha1.
  split; [done|].
  apply puzzle_eq.
  - destruct (make_guess_frame (make_guess pz c1 p1).2 c2 p2) as [-> _].
    destruct (make_guess_frame (make_guess pz c2 p2).2 c1 p1) as [-> _].
    congruence.
  - destruct (make_guess_frame (make_guess pz c1 p1).2 c2 p2) as [_ ->].
    destruct (make_guess_frame (make_guess pz c2 p2).2 c1 p1) as [_ ->].
    congruence.
  - rewrite !make_guess_guesses, Ha1, Ha2.
    destruct (make_guess pz c1 p1).1 eqn:H1, (make_guess pz c2 p2).1 eqn:H2;
      try done.
    destruct (decide (c1 = c2)) as [-> | Hne].
    + by rewrite (make_guess_true_functional pz c2 p1 p2 H1 H2).
    + by apply insert_insert_ne.
Qed.

(** X12. A hint reveals a letter of the ciphertext that had no entry, with
    its true plaintext letter, and takes every occurrence of it out of the
    unguessed list; undoing that letter right away gives back the puzzle as
    it was before the hint. *)
Theorem give_hint_then_undo pz r c p :
  (give_hint pz r).1 = Some (c, p) →
  c ∈ get_ciphertext pz
  ∧ user_guesses pz !! [c] = None
  ∧ (p, c) ∈ cipher_mapping pz
  ∧ user_guesses (give_hint pz r).2 = <[[c] := [p]]> (user_guesses pz)
  ∧ unguessed (give_hint pz r).2 = filter (λ ch, ch ≠ c) (unguessed pz)
  ∧ undo_guess (give_hint pz r).2 [c] = (true, pz).
Proof.
  intros Hsome.
  destruct (give_hint_cases pz r) as [Hn | (c' & p' & Hs & Hun & Hin)];
    [by rewrite Hn in Hsome|].
  rewrite Hs in Hsome |- *. injection Hsome as -> ->. simpl.
  apply elem_of_unguessed in Hun as (Hct & Halpha & Hfresh%not_elem_of_dom).
  split_and!; try done.
  - unfold unguessed at 2. rewrite list_filter_filter. unfold unguessed. simpl.
    apply list_filter_iff. intros ch.
    rewrite dom_insert_L, not_elem_of_union, not_elem_of_singleton.
    split; [intros (Ha & Hne & Hd); split_and!; [congruence | done | done]
           | intros (Hne & Ha & Hd); split_and!; [done | congruence | done]].
  - unfold undo_guess, set_guesses. simpl.
    rewrite bool_decide_eq_true_2 by (apply elem_of_dom; by rewrite lookup_insert_eq).
    rewrite delete_insert_eq, delete_id by done. by destruct pz.
Qed.
End ComposeProofs.

(** * The command layer *)

Section CommandProofs.
Context {U : UnicodeData} {V : UnicodeUpper}.

Lemma display_puzzle_insert reg author pz :
  display_puzzle (<[author := pz]> reg) author
  = Some (SendEmbed (puzzle_embed pz)).
Proof. unfold display_puzzle. by rewrite lookup_insert_eq. Qed.

Lemma dict_del_insert (reg : gmap Z Puzzle) author pz :
  dict_del (<[author := pz]> reg) author = Some (delete author reg).
Proof. unfold dict_del. by rewrite lookup_insert_eq, delete_insert_eq. Qed.

Lemma set_puzzles_id w : set_puzzles w (active_puzzles w) = w.
Proof. by destruct w. Qed.

(** *** What each command returns *)

Lemma new_puzzle_eq w author r shuffled :
  new_puzzle w author r shuffled
  = match load_quotes (quotes_file w) with
    | [] => Some ([Send no_quotes_msg], w)
    | quotes =>
        let puzzle := new shuffled (nth (r mod length quotes)%nat quotes []) in
        Some ([SendEmbed (puzzle_embed puzzle)],
              set_puzzles w (<[author := puzzle]> (active_puzzles w)))
    end.
Proof.
  unfold new_puzzle. destruct (load_quotes (quotes_file w)); [done|].
  by rewrite display_puzzle_insert.
Qed.

Lemma guess_eq w author cipher_char plain_char puzzle :
  active_puzzles w !! author = Some puzzle →
  guess w author cipher_char plain_char
  = let res := make_guess puzzle (upper cipher_char) (lower plain_char) in
    Some (if res.1 then
            if is_solved res.2
            then ([Send congratulations_msg],
                  set_puzzles w (delete author (active_puzzles w)))
            else ([SendEmbed (puzzle_embed res.2)],
                  set_puzzles w (<[author := res.2]> (active_puzzles w)))
          else ([Send incorrect_guess_msg], w)).
Proof.
  intros Hact. unfold guess. rewrite Hact.
  destruct (make_guess_cases puzzle (upper cipher_char) (lower plain_char))
    as [-> | [-> _]]; simpl.
  - by rewrite insert_id, set_puzzles_id.
  - rewrite dict_del_insert, display_puzzle_insert. simpl.
    by destruct (is_solved _).
Qed.

Lemma undo_eq w author cipher_char puzzle :
  active_puzzles w !! author = Some puzzle →
  undo w author cipher_char
  = let res := undo_guess puzzle (upper cipher_char) in
    Some (if res.1
          then ([SendEmbed (puzzle_embed res.2)],
                set_puzzles w (<[author := res.2]> (active_puzzles w)))
          else ([Send no_guess_found_msg], w)).
Proof.
  intros Hact. unfold undo. rewrite Hact.
  destruct (undo_guess_cases puzzle (upper cipher_char)) as [[-> _] | [-> _]]; simpl.
  - by rewrite insert_id, set_puzzles_id.
  - by rewrite display_puzzle_insert.
Qed.

Lemma clear_eq w author puzzle :
  active_puzzles w !! author = Some puzzle →
  clear w author
  = Some ([SendEmbed (puzzle_embed (clear_guesses puzzle))],
          set_puzzles w (<[author := clear_guesses puzzle]> (active_puzzles w))).
Proof.
  intros Hact. unfold clear. rewrite Hact. by rewrite display_puzzle_insert.
Qed.

Lemma give_hint_command_eq w author r puzzle :
  active_puzzles w !! author = Some puzzle →
  give_hint_command w author r
  = let res := give_hint puzzle r in
    Some (match res.1 with
          | None =>
              ([Send (if is_solved puzzle then already_solved_msg
                      else nothing_to_hint_msg)], w)
          | Some (c, p) =>
              if is_solved res.2
              then ([Send (hint_msg c p); Send congratulations_msg],
                    set_puzzles w (delete author (active_puzzles w)))
              else ([Send (hint_msg c p); SendEmbed (puzzle_embed res.2)],
                    set_puzzles w (<[author := res.2]> (active_puzzles w)))
          end).
Proof.
  intros Hact. unfold give_hint_command. rewrite Hact.
  destruct (give_hint_cases puzzle r) as [-> | (c & p & -> & _)]; simpl.
  - rewrite insert_id, set_puzzles_id by done. by destruct (is_solved puzzle).
  - rewrite dict_del_insert, display_puzzle_insert. simpl.
    by destruct (is_solved _).
Qed.

Lemma show_answer_eq w author puzzle :
  active_puzzles w !! author = Some puzzle →
  show_answer w author
  = Some ([Send (answer_msg (plaintext puzzle))],
          set_puzzles w (delete author (active_puzzles w))).
Proof.
  intros Hact. unfold show_answer, dict_del. by rewrite Hact.
Qed.

Lemma solve_eq w author guess_text :
  solve w author guess_text
  = Some ([Send (reply_text (solve_puzzle (active_puzzles w) author guess_text).1)],
          set_puzzles w (solve_puzzle (active_puzzles w) author guess_text).2).
Proof. unfold solve. by destruct (solve_puzzle _ _ _). Qed.

Lemma solve_puzzle_registry (reg : gmap Z Puzzle) author guess_text :
  (solve_puzzle reg author guess_text).2 = reg
  ∨ (solve_puzzle reg author guess_text).2 = delete author reg.
Proof.
  unfold solve_puzzle. destruct (reg !! author); [|by left].
  destruct (solve_attempt _ _); [by right | by left].
Qed.

(** X13. Run to completion, no command raises [KeyError], whatever the
    registry holds: [display_puzzle] is only reached with the author's puzzle
    registered and [del] is only applied to a registered author. *)
Theorem run_never_raises w author cmd :
  ∃ out w', run w author cmd = Some (out, w').
Proof.
  destruct cmd as [r shuffled | cc pc | cc | | text | quote | r |]; simpl.
  - rewrite new_puzzle_eq. destruct (load_quotes _); eauto.
  - destruct (active_puzzles w !! author) as [pz|] eqn:Hact.
    + rewrite (guess_eq w author cc pc pz Hact). simpl.
      destruct (_.1); [destruct (is_solved _)|]; eauto.
    + unfold guess. rewrite Hact. eauto.
  - destruct (active_puzzles w !! author) as [pz|] eqn:Hact.
    + rewrite (undo_eq w author cc pz Hact). simpl. destruct (_.1); eauto.
    + unfold undo. rewrite Hact. eauto.
  - destruct (active_puzzles w !! author) as [pz|] eqn:Hact.
    + rewrite (clear_eq w author pz Hact). eauto.
    + unfold clear. rewrite Hact. eauto.
  - rewrite solve_eq. eauto.
  - unfold add_quote. eauto.
  - destruct (active_puzzles w !! author) as [pz|] eqn:Hact.
    + rewrite (give_hint_command_eq w author r pz Hact). simpl.
      destruct (_.1) as [[c p]|]; [destruct (is_solved _)|]; eauto.
    + unfold give_hint_command. rewrite Hact. eauto.
  - destruct (active_puzzles w !! author) as [pz|] eqn:Hact.
    + rewrite (show_answer_eq w author pz Hact). eauto.
    + unfold show_answer. rewrite Hact. eauto.
Qed.
(** X14. A command that works on the author's puzzle, sent by a user with
    no active puzzle, only answers "No active puzzle! ..." and changes
    nothing. *)
Theorem run_without_puzzle w author cmd :
  active_puzzles w !! author = None → needs_puzzle cmd = true →
  run w author cmd = Some ([Send no_active_puzzle_msg], w).
Proof.
  intros Hact Hneeds.
  destruct cmd as [r shuffled | cc pc | cc | | text | quote | r |];
    try discriminate Hneeds; simpl.
  - unfold guess. by rewrite Hact.
  - unfold undo. by rewrite Hact.
  - unfold clear. by rewrite Hact.
  - rewrite solve_eq. unfold solve_puzzle. rewrite Hact. simpl.
    by rewrite set_puzzles_id.
  - unfold give_hint_command. by rewrite Hact.
  - unfold show_answer. by rewrite Hact.
Qed.

(** What a command can do to the registry: nothing, remove the author's
    entry, or replace it by a puzzle that is reachable if the old one was. *)
Lemma run_registry w author cmd out w' :
  run w author cmd = Some (out, w') →
  active_puzzles w' = active_puzzles w
  ∨ active_puzzles w' = delete author (active_puzzles w)
  ∨ ∃ pz', active_puzzles w' = <[author := pz']> (active_puzzles w)
           ∧ (fair cmd →
              (∀ pz, active_puzzles w !! author = Some pz → reachable pz) →
              reachable pz').
Proof.
  destruct cmd as [r shuffled | cc pc | cc | | text | quote | r |]; simpl.
  - rewrite new_puzzle_eq. destruct (load_quotes _) as [|q qs].
    + intros [= <- <-]. by left.
    + intros [= <- <-]. right. right. eexists. split; [done|].
      intros Hfair _. by apply reach_new.
  - destruct (active_puzzles w !! author) as [pz|] eqn:Hact.
    + rewrite (guess_eq w author cc pc pz Hact). simpl.
      destruct (_.1); [destruct (is_solved _)|]; intros [= <- <-]; auto.
      right. right. eexists. split; [done|].
      intros _ Hold. by apply reach_make_guess, Hold.
    + unfold guess. rewrite Hact. intros [= <- <-]. by left.
  - destruct (active_puzzles w !! author) as [pz|] eqn:Hact.
    + rewrite (undo_eq w author cc pz Hact). simpl.
      destruct (_.1); intros [= <- <-]; auto.
      right. right. eexists. split; [done|].
      intros _ Hold. by apply reach_undo_guess, Hold.
    + unfold undo. rewrite Hact. intros [= <- <-]. by left.
  - destruct (active_puzzles w !! author) as [pz|] eqn:Hact.
    + rewrite (clear_eq w author pz Hact). intros [= <- <-].
      right. right. eexists. split; [done|].
      intros _ Hold. by apply reach_clear_guesses, Hold.
    + unfold clear. rewrite Hact. intros [= <- <-]. by left.
  - rewrite solve_eq. intros [= <- <-]. simpl.
    destruct (solve_puzzle_registry (active_puzzles w) author text) as [-> | ->]; auto.
  - unfold add_quote. intros [= <- <-]. by left.
  - destruct (active_puzzles w !! author) as [pz|] eqn:Hact.
    + rewrite (give_hint_command_eq w author r pz Hact). simpl.
      destruct (_.1) as [[c p]|]; [destruct (is_solved _)|];
        intros [= <- <-]; auto.
      right. right. eexists. split; [done|].
      intros _ Hold. by apply reach_give_hint, Hold.
    + unfold give_hint_command. rewrite Hact. intros [= <- <-]. by left.
  - destruct (active_puzzles w !! author) as [pz|] eqn:Hact.
    + rewrite (show_answer_eq w author pz Hact). intros [= <- <-]. auto.
    + unfold show_answer. rewrite Hact. intros [= <- <-]. by left.
Qed.

(** X15. A command touches no one else's puzzle: every other user's entry
    in the registry is the same before and after; and only [!addquote]
    writes the quote file. *)
Theorem run_isolation w author cmd out w' :
  run w author cmd = Some (out, w') →
  (∀ user, user ≠ author →
     active_puzzles w' !! user = active_puzzles w !! user)
  ∧ ((∀ quote, cmd ≠ AddQuote quote) → quotes_file w' = quotes_file w).
Proof.
  intros Hrun. split.
  - intros user Hne.
    destruct (run_registry w author cmd out w' Hrun) as [-> | [-> | (pz' & -> & _)]];
      [done | by apply lookup_delete_ne | by apply lookup_insert_ne].
  - intros Hcmd. revert Hrun.
    destruct cmd as [r shuffled | cc pc | cc | | text | quote | r |]; simpl.
    + rewrite new_puzzle_eq. destruct (load_quotes _); by intros [= <- <-].
    + destruct (active_puzzles w !! author) as [pz|] eqn:Hact.
      * rewrite (guess_eq w author cc pc pz Hact). simpl.
        destruct (_.1); [destruct (is_solved _)|]; by intros [= <- <-].
      * unfold guess. rewrite Hact. by intros [= <- <-].
    + destruct (active_puzzles w !! author) as [pz|] eqn:Hact.
      * rewrite (undo_eq w author cc pz Hact). simpl.
        destruct (_.1); by intros [= <- <-].
      * unfold undo. rewrite Hact. by intros [= <- <-].
    + destruct (active_puzzles w !! author) as [pz|] eqn:Hact.
      * rewrite (clear_eq w author pz Hact). by intros [= <- <-].
      * unfold clear. rewrite Hact. by intros [= <- <-].
    + rewrite solve_eq. by intros [= <- <-].
    + by destruct (Hcmd quote).
    + destruct (active_puzzles w !! author) as [pz|] eqn:Hact.
      * rewrite (give_hint_command_eq w author r pz Hact). simpl.
        destruct (_.1) as [[c p]|]; [destruct (is_solved _)|];
          by intros [= <- <-].
      * unfold give_hint_command. rewrite Hact. by intros [= <- <-].
    + destruct (active_puzzles w !! author) as [pz|] eqn:Hact.
      * rewrite (show_answer_eq w author pz Hact). by intros [= <- <-].
      * unfold show_answer. rewrite Hact. by intros [= <- <-].
Qed.

(** X16. Whatever commands the users have sent, every puzzle in the registry
    is in a state the [Puzzle] methods can reach, and each of its revealed
    entries is an item of its true mapping. *)
Theorem registry_puzzles_consistent w :
  world_reachable w →
  ∀ user pz, active_puzzles w !! user = Some pz →
    reachable pz
    ∧ ∀ cipher_char plain_char,
        user_guesses pz !! cipher_char = Some plain_char →
        true_letter pz cipher_char plain_char.
Proof.
  intros Hw.
  assert (Hall : ∀ user pz, active_puzzles w !! user = Some pz → reachable pz).
  { induction Hw as [qf | w author cmd out w' _ IH Hfair Hrun]; simpl.
    - intros user pz. by rewrite lookup_empty.
    - intros user pz.
      destruct (run_registry w author cmd out w' Hrun)
        as [-> | [-> | (pz' & -> & Hreach)]].
      + apply IH.
      + rewrite lookup_delete. case_decide; [done | apply IH].
      + rewrite lookup_insert. case_decide; [|apply IH].
        intros [= <-]. apply Hreach; [done|]. intros pz0. apply IH. }
  intros user pz Hpz. split; [by apply (Hall user)|].
  apply reachable_consistent. by apply (Hall user).
Qed.
(** *** Replies *)

Lemma nth_mod_elem_of r (l : list (list N)) :
  l ≠ [] → nth (r mod length l)%nat l [] ∈ l.
Proof.
  intros Hne. apply list_elem_of_In, nth_In, Nat.mod_upper_bound.
  by destruct l.
Qed.

Lemma hint_msg_not_congratulations c p : hint_msg c p ≠ congratulations_msg.
Proof. discriminate. Qed.

Lemma not_elem_of_1 (m m' : message) : m ≠ m' → m ∉ [m'].
Proof. intros Hne [-> | Hin%elem_of_nil]%elem_of_cons; done. Qed.

(** X17. When a [!guess] or [!hint] is sent on a puzzle that is not solved,
    either the congratulations are sent and the author's puzzle is
    unregistered, or they are not sent and the author keeps a puzzle that is
    still not solved. *)
Theorem congratulations_iff_unregistered w author cmd out w' pz :
  active_puzzles w !! author = Some pz → is_solved pz = false →
  reveals cmd = true →
  run w author cmd = Some (out, w') →
  (Send congratulations_msg ∈ out ∧ active_puzzles w' !! author = None)
  ∨ ((Send congratulations_msg ∉ out)
     ∧ ∃ pz', active_puzzles w' !! author = Some pz' ∧ is_solved pz' = false).
Proof.
  intros Hact Hunsolved Hrev.
  destruct cmd as [r shuffled | cc pc | cc | | text | quote | r |];
    try discriminate Hrev; simpl.
  - rewrite (guess_eq w author cc pc pz Hact). cbv zeta.
    destruct (make_guess_cases pz (upper cc) (lower pc)) as [-> | [-> _]];
      cbn [fst snd].
    + intros [= <- <-]. right. split; [by apply not_elem_of_1 | by exists pz].
    + destruct (is_solved (set_guesses pz _)) eqn:Hs; intros [= <- <-]; simpl.
      * left. split; [left | apply lookup_delete_eq].
      * right. split; [by apply not_elem_of_1|].
        eexists. by rewrite lookup_insert_eq.
  - rewrite (give_hint_command_eq w author r pz Hact). cbv zeta.
    destruct (give_hint_cases pz r) as [-> | (c & p & -> & _)]; cbn [fst snd].
    + intros [= <- <-]. right. split; [|by exists pz].
      rewrite Hunsolved. by apply not_elem_of_1.
    + destruct (is_solved (set_guesses pz _)) eqn:Hs; intros [= <- <-]; simpl.
      * left. split; [right; left | apply lookup_delete_eq].
      * right. split; [|eexists; by rewrite lookup_insert_eq].
        intros [Heq | Hin]%elem_of_cons.
        -- injection Heq as Heq. by destruct (hint_msg_not_congratulations c p).
        -- by apply not_elem_of_1 in Hin.
Qed.

(** X18. What [!hint] answers on a reachable puzzle: either a hint that is
    a true pair of the mapping for a letter of the ciphertext not revealed
    before, or "Puzzle is already solved!" on a solved puzzle, or the
    "nothing to hint" reply on an unsolved one, none of the last two
    changing anything.  When the plaintext's letters are all among a-z the
    "nothing to hint" reply is never sent. *)
Theorem hint_reply w author r pz out w' :
  active_puzzles w !! author = Some pz → reachable pz →
  run w author (Hint r) = Some (out, w') →
  (∃ c p rest, out = Send (hint_msg c p) :: rest
     ∧ (p, c) ∈ cipher_mapping pz ∧ c ∈ get_ciphertext pz
     ∧ user_guesses pz !! [c] = None)
  ∨ (out = [Send already_solved_msg] ∧ is_solved pz = true ∧ w' = w)
  ∨ (out = [Send nothing_to_hint_msg] ∧ is_solved pz = false ∧ w' = w
     ∧ ¬ ascii_letters_only pz).
Proof.
  intros Hact Hr. simpl. rewrite (give_hint_command_eq w author r pz Hact). cbv zeta.
  destruct (give_hint_cases pz r) as [Hn | (c & p & Hs & Hun & Hin)].
  - rewrite Hn. cbn [fst snd]. intros [= <- <-]. right.
    destruct (is_solved pz) eqn:Hsolved; [by left | right].
    split_and!; try done. intros Hascii.
    assert (Hnone : (give_hint pz r).1 = None) by by rewrite Hn.
    pose proof (give_hint_None_unguessed pz r Hr Hascii Hnone) as Hnil.
    pose proof (unguessed_nil_solved pz Hr Hascii Hnil) as Heq.
    apply bool_decide_eq_false in Hsolved. done.
  - rewrite Hs. cbn [fst snd].
    apply elem_of_unguessed in Hun as (Hct & _ & Hfresh%not_elem_of_dom).
    destruct (is_solved (set_guesses pz _)); intros [= <- <-]; left; eauto 10.
Qed.

(** X19. [!addquote] appends the quote to the stored list (starting from the
    empty list when the file does not exist), keeps the registry, and
    afterwards [!newpuzzle] always starts a puzzle, for any user. *)
Theorem add_quote_then_new_puzzle w author quote :
  ∃ w', run w author (AddQuote quote) = Some ([Send quote_added_msg], w')
    ∧ active_puzzles w' = active_puzzles w
    ∧ load_quotes (quotes_file w') = load_quotes (quotes_file w) ++ [quote]
    ∧ ∀ user r shuffled, ∃ q,
        q ∈ load_quotes (quotes_file w')
        ∧ run w' user (NewPuzzle r shuffled)
          = Some ([SendEmbed (puzzle_embed (new shuffled q))],
                  set_puzzles w' (<[user := new shuffled q]> (active_puzzles w'))).
Proof.
  exists {| active_puzzles := active_puzzles w;
            quotes_file := Some (load_quotes (quotes_file w) ++ [quote]) |}.
  split; [done|]. split; [done|]. split; [done|].
  intros user r shuffled. unfold run. rewrite new_puzzle_eq.
  cbn [quotes_file load_quotes active_puzzles].
  set (qs := load_quotes (quotes_file w) ++ [quote]).
  assert (Hne : qs ≠ []) by (subst qs; by destruct (load_quotes (quotes_file w))).
  exists (nth (r mod length qs)%nat qs []).
  split; [by apply nth_mod_elem_of|]. by destruct qs.
Qed.

(** X20. [!newpuzzle] with a missing or empty quote file answers "No quotes
    available in the database!" and changes nothing; otherwise it registers
    for the author a fresh puzzle on one of the stored quotes, with nothing
    revealed, replacing whatever puzzle the author had. *)
Theorem new_puzzle_spec w author r shuffled :
  (load_quotes (quotes_file w) = [] →
     run w author (NewPuzzle r shuffled) = Some ([Send no_quotes_msg], w))
  ∧ (load_quotes (quotes_file w) ≠ [] →
     ∃ quote out w',
       run w author (NewPuzzle r shuffled) = Some (out, w')
       ∧ quote ∈ load_quotes (quotes_file w)
       ∧ active_puzzles w' !! author = Some (new shuffled quote)
       ∧ user_guesses (new shuffled quote) = ∅
       ∧ plaintext (new shuffled quote) = lower quote
       ∧ quotes_file w' = quotes_file w).
Proof.
  unfold run. rewrite new_puzzle_eq. split.
  - by intros ->.
  - intros Hne. pose proof (nth_mod_elem_of r _ Hne) as Hin.
    destruct (load_quotes (quotes_file w)) as [|q qs] eqn:Hq; [done|].
    eexists _, _, _. split; [done|].
    split_and!; [exact Hin | apply lookup_insert_eq | done | done | done].
Qed.
(** *** Letters in either case *)

Lemma ascii_letter_ascii c : ascii_letter c = true → is_ascii c = true.
Proof.
  unfold ascii_letter. intros [H | H]%orb_true_iff;
    [by apply ascii_isupper_ascii | by apply ascii_islower_ascii].
Qed.

Lemma ascii_toupper_upper c :
  ascii_letter c = true → ascii_isupper (ascii_toupper c) = true.
Proof.
  unfold ascii_letter, ascii_toupper.
  destruct (ascii_islower c) eqn:Hl; [|by rewrite orb_false_r].
  intros _. unfold ascii_islower, ascii_isupper in *.
  apply andb_true_iff in Hl as [H1%N.leb_le H2%N.leb_le].
  apply andb_true_iff. split; apply N.leb_le; lia.
Qed.

Lemma ascii_tolower_lower c :
  ascii_letter c = true → ascii_islower (ascii_tolower c) = true.
Proof.
  unfold ascii_letter, ascii_tolower.
  destruct (ascii_isupper c) eqn:Hu; [|done].
  intros _. unfold ascii_islower, ascii_isupper in *.
  apply andb_true_iff in Hu as [H1%N.leb_le H2%N.leb_le].
  apply andb_true_iff. split; apply N.leb_le; lia.
Qed.

Lemma upper_letter c : ascii_letter c = true → upper [c] = [ascii_toupper c].
Proof. intros Hc%ascii_letter_ascii. unfold upper. simpl. by rewrite Hc. Qed.

Lemma lower_letter c : ascii_letter c = true → lower [c] = [ascii_tolower c].
Proof. intros Hc%ascii_letter_ascii. unfold lower. simpl. by rewrite Hc. Qed.

Lemma make_guess_letters pz c p :
  reachable pz → ascii_isupper c = true → ascii_islower p = true →
  (make_guess pz [c] [p]).1 = true ↔ (p, c) ∈ cipher_mapping pz.
Proof.
  intros Hr Hc Hp. split.
  - intros Hok.
    destruct (make_guess_cases pz [c] [p])
      as [Hf | (_ & _ & _ & c' & p' & [= <-] & [= <-] & Hin)];
      [by rewrite Hf in Hok | done].
  - intros Hin. unfold make_guess. simpl. unfold char_isupper, char_islower.
    rewrite (ascii_isupper_ascii c Hc), (ascii_islower_ascii p Hp), Hc, Hp. simpl.
    rewrite (find_cipher_unique _ p c) by (by apply reachable_values_NoDup || done).
    by rewrite bool_decide_eq_true_2.
Qed.

(** X21. [!guess] takes its two letters in either case: for ASCII letters
    the "Incorrect guess ..." reply is sent exactly when the lowercased plain
    letter is not the one the mapping gives to the uppercased cipher
    letter. *)
Theorem guess_ascii_letters w author pz c p out w' :
  active_puzzles w !! author = Some pz → reachable pz →
  ascii_letter c = true → ascii_letter p = true →
  run w author (Guess [c] [p]) = Some (out, w') →
  (out = [Send incorrect_guess_msg]
   ↔ (ascii_tolower p, ascii_toupper c) ∉ cipher_mapping pz).
Proof.
  intros Hact Hr Hc Hp. unfold run.
  rewrite (guess_eq w author [c] [p] pz Hact). cbv zeta.
  rewrite (upper_letter c Hc), (lower_letter p Hp).
  pose proof (make_guess_letters pz _ _ Hr (ascii_toupper_upper c Hc)
                (ascii_tolower_lower p Hp)) as Hiff.
  destruct (make_guess pz [ascii_toupper c] [ascii_tolower p]) as [ok pz'].
  cbn [fst snd] in *. destruct ok.
  - destruct (is_solved pz'); intros [= <- <-];
      (split; [discriminate | intros Hnot; destruct Hnot; by apply Hiff]).
  - intros [= <- <-]. split; [|done].
    intros _ Hin%Hiff. discriminate.
Qed.
End CommandProofs.

(** ** The frequency table *)

Lemma Counter_fold (l : str) : ∀ (cnt : gmap char nat) c,
  foldl (λ cnt ch, <[ch := S (default O (cnt !! ch))]> cnt) cnt l !! c
  = match length (filter (λ x, x = c) l) with
    | O => cnt !! c
    | S n => Some (S n + default O (cnt !! c))%nat
    end.
Proof.
  induction l as [|a l IH]; intros cnt c; [done|].
  simpl. rewrite IH. rewrite filter_cons.
  destruct (decide (a = c)) as [-> | Hne].
  - rewrite lookup_insert_eq. simpl.
    destruct (length (filter _ l)); simpl; f_equal; lia.
  - by rewrite lookup_insert_ne.
Qed.

Lemma Counter_lookup (l : str) c :
  Counter l !! c
  = if decide (c ∈ l) then Some (length (filter (λ x, x = c) l)) else None.
Proof.
  unfold Counter. rewrite Counter_fold, lookup_empty. simpl.
  destruct (decide (c ∈ l)) as [Hin | Hnotin].
  - destruct (filter (λ x, x = c) l) as [|x rest] eqn:Hf.
    + by destruct (filter_nil_not_elem_of _ _ c Hf).
    + simpl. f_equal. lia.
  - destruct (filter (λ x, x = c) l) as [|x rest] eqn:Hf; [done|].
    assert (Hx : x ∈ filter (λ x, x = c) l) by (rewrite Hf; left).
    apply list_elem_of_filter in Hx as [-> Hx]. done.
Qed.

Section FrequencyProofs.
Context {U : UnicodeData}.

(** X22. The frequency table of [display_puzzle] lists exactly the
    alphabetic characters of the ciphertext, each once, in increasing order,
    each with the number of its occurrences in the ciphertext. *)
Theorem frequency_table pz :
  Sorted N.le (sorted_keys (freq_counter pz))
  ∧ NoDup (sorted_keys (freq_counter pz))
  ∧ (∀ ch, ch ∈ sorted_keys (freq_counter pz)
           ↔ isalpha ch = true ∧ ch ∈ get_ciphertext pz)
  ∧ (∀ ch, ch ∈ sorted_keys (freq_counter pz) →
       freq_counter pz !! ch
       = Some (length (filter (λ x, x = ch) (get_ciphertext pz)))).
Proof.
  assert (Hkeys : ∀ ch, ch ∈ sorted_keys (freq_counter pz)
                        ↔ isalpha ch = true ∧ ch ∈ get_ciphertext pz).
  { intros ch. unfold sorted_keys. rewrite merge_sort_Permutation.
    rewrite elem_of_elements, elem_of_dom. unfold freq_counter.
    rewrite Counter_lookup.
    destruct (decide _) as [Hin | Hnotin].
    - split; [intros _; by apply list_elem_of_filter in Hin | by eexists].
    - split; [by intros [? ?] | intros Hch].
      destruct Hnotin. by apply list_elem_of_filter. }
  split_and!.
  - apply Sorted_merge_sort. apply _.
  - unfold sorted_keys. rewrite merge_sort_Permutation. apply NoDup_elements.
  - exact Hkeys.
  - intros ch [Halpha Hin]%Hkeys. unfold freq_counter.
    rewrite Counter_lookup.
    rewrite decide_True by (by apply list_elem_of_filter).
    f_equal. rewrite list_filter_filter. f_equal.
    apply list_filter_iff. intros x. split; [by intros [-> _] | by intros ->].
Qed.
End FrequencyProofs.

(** ** Ending a session, clearing the guesses *)

Section SessionProofs.
Context {U : UnicodeData} {V : UnicodeUpper}.

(** X23. [!answer] on an active puzzle sends the plaintext and unregisters
    the puzzle: the author's next command on a puzzle is answered "No active
    puzzle! ..." and changes nothing. *)
Theorem answer_ends_session w author pz :
  active_puzzles w !! author = Some pz →
  ∃ w', run w author Answer = Some ([Send (answer_msg (plaintext pz))], w')
    ∧ active_puzzles w' !! author = None
    ∧ ∀ cmd, needs_puzzle cmd = true →
        run w' author cmd = Some ([Send no_active_puzzle_msg], w').
Proof.
  intros Hact. eexists. split; [by apply show_answer_eq|].
  assert (Hgone : active_puzzles
                    (set_puzzles w (delete author (active_puzzles w))) !! author
                  = None) by apply lookup_delete_eq.
  split; [exact Hgone|].
  intros cmd Hcmd.
  destruct cmd as [r shuffled | cc pc | cc | | text | quote | r |];
    try discriminate Hcmd; unfold run.
  - unfold guess. by rewrite Hgone.
  - unfold undo. by rewrite Hgone.
  - unfold clear. by rewrite Hgone.
  - rewrite solve_eq. unfold solve_puzzle. rewrite Hgone.
    cbn [fst snd reply_text]. by rewrite set_puzzles_id.
  - unfold give_hint_command. by rewrite Hgone.
  - unfold show_answer. by rewrite Hgone.
Qed.

(** X24. After [clear_guesses] the current guess shows an underscore for
    every alphabetic character of the ciphertext and every other character
    unchanged, and no letter can be undone. *)
Theorem clear_guesses_display pz :
  get_current_guess (clear_guesses pz)
  = map (λ ch, if isalpha ch then underscore else ch) (get_ciphertext pz)
  ∧ ∀ cipher_char,
      undo_guess (clear_guesses pz) cipher_char = (false, clear_guesses pz).
Proof.
  split.
  - unfold get_current_guess, clear_guesses. simpl.
    change (get_ciphertext (set_guesses pz ∅)) with (get_ciphertext pz).
    induction (get_ciphertext pz) as [|ch l IH]; [done|]. simpl.
    rewrite IH. unfold guess_piece. rewrite lookup_empty.
    by destruct (isalpha ch).
  - intros cc. unfold undo_guess, clear_guesses. simpl.
    by rewrite dom_empty_L, bool_decide_eq_false_2 by apply not_elem_of_empty.
Qed.
End SessionProofs.

(** ** The further properties run on the sample puzzles *)

Section MoreSamples.
Local Existing Instance Latin1.
Local Existing Instance Latin1Upper.

Lemma no_letters_reachable : reachable no_letters.
Proof. apply reach_new, sample_shuffle_Permutation. Qed.

Lemma hi_there_solved_reachable : reachable hi_there_solved.
Proof.
  unfold hi_there_solved. generalize 5%nat. intros n.
  induction n as [|n IH]; simpl; [apply hi_there_reachable | by apply reach_give_hint].
Qed.

Lemma sample_world_reachable : world_reachable sample_world.
Proof.
  refine (world_run {| active_puzzles := ∅;
                       quotes_file := Some [codes "Hi there"] |}
            ann (NewPuzzle 0 sample_shuffle) _ _
            (world_start _) sample_shuffle_Permutation _).
  vm_compute. reflexivity.
Qed.

Lemma encode_decode_round_trip_witness :
  reachable hi_there
  ∧ find_cipher (cipher_mapping hi_there)
      [dict_get (cipher_mapping hi_there) 104 104] = Some 104.
Proof.
  split; [exact hi_there_reachable|].
  destruct (encode_decode_round_trip hi_there hi_there_reachable) as [Henc _].
  apply Henc. apply (bool_decide_unpack _). vm_compute. exact I.
Defined.

Lemma ciphertext_layout_witness :
  reachable hi_there
  ∧ length (get_ciphertext hi_there) = length (plaintext hi_there)
  ∧ get_ciphertext hi_there !! 2%nat = Some 32.
Proof.
  split; [exact hi_there_reachable|].
  destruct (ciphertext_layout hi_there hi_there_reachable) as [Hlen Hpos].
  split; [exact Hlen|].
  destruct (Hpos 2%nat 32 eq_refl) as [_ Hother].
  apply Hother. apply (bool_decide_unpack _). vm_compute. exact I.
Defined.

Lemma unrevealed_solved_iff_witness :
  reachable no_letters ∧ user_guesses no_letters = ∅
  ∧ is_solved no_letters = true.
Proof.
  split; [exact no_letters_reachable|]. split; [reflexivity|].
  apply (unrevealed_solved_iff no_letters no_letters_reachable eq_refl).
  refine (proj1 (Forall_forall (λ c, isalpha c = false) (plaintext no_letters)) _).
  apply (bool_decide_unpack _). vm_compute. exact I.
Defined.

Lemma solved_iff_all_revealed_witness :
  reachable hi_there_solved ∧ ascii_letters_only hi_there_solved
  ∧ is_solved hi_there_solved = true.
Proof.
  assert (Hascii : ascii_letters_only hi_there_solved).
  { unfold ascii_letters_only.
    refine (proj1 (Forall_forall
                     (λ c, isalpha c = true → c ∈ ascii_lowercase)
                     (plaintext hi_there_solved)) _).
    apply (bool_decide_unpack _). vm_compute. exact I. }
  split; [exact hi_there_solved_reachable|]. split; [exact Hascii|].
  apply (solved_iff_all_revealed hi_there_solved hi_there_solved_reachable Hascii).
  vm_compute. reflexivity.
Defined.

Lemma give_hint_solved_witness :
  reachable hi_there_solved ∧ is_solved hi_there_solved = true
  ∧ give_hint hi_there_solved 3 = (None, hi_there_solved).
Proof.
  assert (Hs : is_solved hi_there_solved = true) by (vm_compute; reflexivity).
  split; [exact hi_there_solved_reachable|]. split; [exact Hs|].
  exact (give_hint_solved hi_there_solved 3 hi_there_solved_reachable Hs).
Defined.

Lemma make_guess_display_witness :
  reachable hi_there
  ∧ (make_guess hi_there (codes "Q") (codes "h")).1 = true
  ∧ get_current_guess (make_guess hi_there (codes "Q") (codes "h")).2 !! 4%nat
    = Some 104.
Proof.
  assert (Hok : (make_guess hi_there (codes "Q") (codes "h")).1 = true)
    by reflexivity.
  split; [exact hi_there_reachable|]. split; [exact Hok|].
  destruct (make_guess_display hi_there (codes "Q") (codes "h")
              hi_there_reachable Hok) as (c & p & [= <-] & [= <-] & Hpos).
  destruct (Hpos 4%nat 81 eq_refl) as [Hshown _].
  by apply Hshown.
Defined.

Lemma undo_guess_display_witness :
  reachable hi_there_Q
  ∧ (undo_guess hi_there_Q (codes "Q")).1 = true
  ∧ get_current_guess (undo_guess hi_there_Q (codes "Q")).2 !! 0%nat
    = Some underscore.
Proof.
  assert (Hok : (undo_guess hi_there_Q (codes "Q")).1 = true)
    by (vm_compute; reflexivity).
  split; [exact hi_there_Q_reachable|]. split; [exact Hok|].
  destruct (undo_guess_display hi_there_Q (codes "Q") hi_there_Q_reachable Hok)
    as (c & [= <-] & Hpos).
  destruct (Hpos 0%nat 81 eq_refl) as [Hshown _].
  by apply Hshown.
Defined.

Lemma make_guess_keeps_solved_witness :
  reachable hi_there_solved ∧ is_solved hi_there_solved = true
  ∧ is_solved (make_guess hi_there_solved (codes "A") (codes "a")).2 = true.
Proof.
  assert (Hs : is_solved hi_there_solved = true) by (vm_compute; reflexivity).
  split; [exact hi_there_solved_reachable|]. split; [exact Hs|].
  exact (make_guess_keeps_solved hi_there_solved _ _ hi_there_solved_reachable Hs).
Defined.

Lemma give_hint_then_undo_witness :
  (give_hint hi_there 2).1 = Some (77, 116)
  ∧ undo_guess (give_hint hi_there 2).2 [77] = (true, hi_there).
Proof.
  assert (Hh : (give_hint hi_there 2).1 = Some (77, 116))
    by (vm_compute; reflexivity).
  split; [exact Hh|].
  apply (give_hint_then_undo hi_there 2 77 116 Hh).
Defined.

Lemma run_without_puzzle_witness :
  active_puzzles sample_world !! 8%Z = None
  ∧ run sample_world 8%Z (Hint 0) = Some ([Send no_active_puzzle_msg], sample_world).
Proof.
  assert (Hn : active_puzzles sample_world !! 8%Z = None)
    by (vm_compute; reflexivity).
  split; [exact Hn|].
  exact (run_without_puzzle sample_world 8%Z (Hint 0) Hn eq_refl).
Defined.

Lemma run_isolation_witness :
  ∃ out w', run sample_world 8%Z (NewPuzzle 0 sample_shuffle) = Some (out, w')
            ∧ active_puzzles w' !! ann = Some hi_there.
Proof.
  destruct (run sample_world 8%Z (NewPuzzle 0 sample_shuffle))
    as [[out w']|] eqn:Hrun; [|vm_compute in Hrun; discriminate Hrun].
  exists out, w'. split; [reflexivity|].
  destruct (run_isolation _ _ _ _ _ Hrun) as [Hother _].
  rewrite (Hother ann) by discriminate. vm_compute. reflexivity.
Defined.

Lemma registry_puzzles_consistent_witness :
  world_reachable sample_world ∧ reachable hi_there.
Proof.
  split; [exact sample_world_reachable|].
  apply (registry_puzzles_consistent sample_world sample_world_reachable ann).
  vm_compute. reflexivity.
Defined.

Lemma congratulations_iff_unregistered_witness :
  ∃ out w',
    run sample_world ann (Guess (codes "q") (codes "H")) = Some (out, w')
    ∧ ((Send congratulations_msg ∈ out ∧ active_puzzles w' !! ann = None)
       ∨ ((Send congratulations_msg ∉ out)
          ∧ ∃ pz', active_puzzles w' !! ann = Some pz' ∧ is_solved pz' = false)).
Proof.
  destruct (run sample_world ann (Guess (codes "q") (codes "H")))
    as [[out w']|] eqn:Hrun; [|vm_compute in Hrun; discriminate Hrun].
  exists out, w'. split; [reflexivity|].
  apply (congratulations_iff_unregistered sample_world ann
           (Guess (codes "q") (codes "H")) out w' hi_there);
    [vm_compute; reflexivity | reflexivity | reflexivity | exact Hrun].
Defined.

Lemma hint_reply_witness :
  ∃ out w',
    run sample_world ann (Hint 2) = Some (out, w')
    ∧ ((∃ c p rest, out = Send (hint_msg c p) :: rest
          ∧ (p, c) ∈ cipher_mapping hi_there ∧ c ∈ get_ciphertext hi_there
          ∧ user_guesses hi_there !! [c] = None)
       ∨ (out = [Send already_solved_msg] ∧ is_solved hi_there = true
          ∧ w' = sample_world)
       ∨ (out = [Send nothing_to_hint_msg] ∧ is_solved hi_there = false
          ∧ w' = sample_world ∧ ¬ ascii_letters_only hi_there)).
Proof.
  destruct (run sample_world ann (Hint 2))
    as [[out w']|] eqn:Hrun; [|vm_compute in Hrun; discriminate Hrun].
  exists out, w'. split; [reflexivity|].
  apply (hint_reply sample_world ann 2 hi_there out w');
    [vm_compute; reflexivity | exact hi_there_reachable | exact Hrun].
Defined.

Lemma guess_ascii_letters_witness :
  ∃ out w',
    run sample_world ann (Guess [113] [72]) = Some (out, w')
    ∧ (ascii_tolower 72, ascii_toupper 113) ∈ cipher_mapping hi_there
    ∧ out ≠ [Send incorrect_guess_msg].
Proof.
  destruct (run sample_world ann (Guess [113] [72]))
    as [[out w']|] eqn:Hrun; [|vm_compute in Hrun; discriminate Hrun].
  exists out, w'. split; [reflexivity|].
  assert (Hin : (ascii_tolower 72, ascii_toupper 113) ∈ cipher_mapping hi_there)
    by (apply (bool_decide_unpack _); vm_compute; exact I).
  split; [exact Hin|].
  intros Hout.
  apply (guess_ascii_letters sample_world ann hi_there 113 72 out w') in Hout;
    [by destruct Hout | vm_compute; reflexivity | exact hi_there_reachable
    | reflexivity | reflexivity | exact Hrun].
Defined.
Lemma answer_ends_session_witness :
  active_puzzles sample_world !! ann = Some hi_there
  ∧ ∃ w', run sample_world ann Answer
          = Some ([Send (answer_msg (codes "hi there"))], w')
    ∧ run w' ann Clear = Some ([Send no_active_puzzle_msg], w').
Proof.
  assert (Hact : active_puzzles sample_world !! ann = Some hi_there)
    by (vm_compute; reflexivity).
  split; [exact Hact|].
  destruct (answer_ends_session sample_world ann hi_there Hact)
    as (w' & Hrun & _ & Hnext).
  exists w'. split; [exact Hrun | by apply Hnext].
Defined.
End MoreSamples.
